(** * Indicator trace plot (src/unnamed/part_001, module [plot]) *)

From Stdlib Require Import Reals Lra List String Bool Arith Lia.
Import ListNotations.
Open Scope R_scope.

(** ** JavaScript numbers

    A JS number is modelled as an extended real: a finite value, the two
    infinities, or NaN. Rounding and the sign of zero are not modelled;
    in [valueToAngle] the only zero divisor is [max - min] with
    [max = min], which IEEE-754 evaluates to +0. *)

Inductive jsnum : Type :=
| Num (r : R)
| PosInf
| NegInf
| NaN.

Definition js_neg (x : jsnum) : jsnum :=
  match x with
  | Num a => Num (- a)
  | PosInf => NegInf
  | NegInf => PosInf
  | NaN => NaN
  end.

Definition js_sub (x y : jsnum) : jsnum :=
  match x, y with
  | Num a, Num b => Num (a - b)
  | PosInf, Num _ | PosInf, NegInf | Num _, NegInf => PosInf
  | NegInf, Num _ | NegInf, PosInf | Num _, PosInf => NegInf
  | _, _ => NaN
  end.

(** Sign of a finite number times an infinity. *)
Definition inf_times (pos : bool) (b : R) : jsnum :=
  match Rlt_dec 0 b with
  | left _ => if pos then PosInf else NegInf
  | right _ =>
      match Rlt_dec b 0 with
      | left _ => if pos then NegInf else PosInf
      | right _ => NaN
      end
  end.

Definition js_mul (x y : jsnum) : jsnum :=
  match x, y with
  | Num a, Num b => Num (a * b)
  | PosInf, Num b | Num b, PosInf => inf_times true b
  | NegInf, Num b | Num b, NegInf => inf_times false b
  | PosInf, PosInf | NegInf, NegInf => PosInf
  | PosInf, NegInf | NegInf, PosInf => NegInf
  | _, _ => NaN
  end.

Definition js_div (x y : jsnum) : jsnum :=
  match x, y with
  | Num a, Num b =>
      match Req_EM_T b 0 with
      | right _ => Num (a / b)
      | left _ => inf_times true a
      end
  | Num _, PosInf | Num _, NegInf => Num 0
  | PosInf, Num b =>
      match Req_EM_T b 0 with left _ => PosInf | right _ => inf_times true b end
  | NegInf, Num b =>
      match Req_EM_T b 0 with left _ => NegInf | right _ => inf_times false b end
  | _, _ => NaN
  end.

(** [a < b] on JS numbers: false as soon as one side is NaN. *)
Definition js_lt (x y : jsnum) : bool :=
  match x, y with
  | Num a, Num b => if Rlt_dec a b then true else false
  | NegInf, Num _ | NegInf, PosInf | Num _, PosInf => true
  | _, _ => false
  end.

Definition js_gt (x y : jsnum) : bool := js_lt y x.

Definition js_add (x y : jsnum) : jsnum :=
  match x, y with
  | Num a, Num b => Num (a + b)
  | PosInf, Num _ | Num _, PosInf | PosInf, PosInf => PosInf
  | NegInf, Num _ | Num _, NegInf | NegInf, NegInf => NegInf
  | _, _ => NaN
  end.

(** d3 (v3): [d3.interpolateNumber(a, b)] is
    [function(t) { return a * (1 - t) + b * t; }] (after [a = +a, b = +b]). *)
Definition interpolateNumber (a b : jsnum) (t : R) : jsnum :=
  js_add (js_mul a (Num (1 - t))) (js_mul b (Num t)).

(** ** Value Mapper: [valueToAngle]

    <<
    var theta = Math.PI / 2;
    function valueToAngle(v) {
        var angle = (v - trace.min) / (trace.max - trace.min) * Math.PI - theta;
        if(angle < -theta) return -theta;
        if(angle > theta) return theta;
        return angle;
    }
    >> *)

Definition Math_PI : jsnum := Num PI.

Definition theta : jsnum := js_div Math_PI (Num 2).

Definition valueToAngle (trace_min trace_max v : jsnum) : jsnum :=
  let angle :=
    js_sub (js_mul (js_div (js_sub v trace_min) (js_sub trace_max trace_min)) Math_PI)
           theta in
  if js_lt angle (js_neg theta) then js_neg theta
  else if js_gt angle theta then theta
  else angle.

(** Clamping written on reals, as [valueToAngle] evaluates it on finite
    arguments with [min < max]. *)
Definition clamp_angle (a : R) : R :=
  if Rlt_dec a (- (PI / 2)) then - (PI / 2)
  else if Rlt_dec (PI / 2) a then PI / 2
  else a.

(** ** Layout Planner: font sizes

    The constants [cn.innerRadius] and [cn.bulletHeight] come from
    [./constants], which is not part of the sources; they are parameters
    here. [digits] is [fmt(trace.max).length]. *)

Inductive gauge_shape : Type := Angular | Bullet.

Record mode_flags : Type := {
  hasBigNumber : bool;
  hasDelta : bool;
  hasGauge : bool;
  shape : gauge_shape
}.

Definition isAngular (m : mode_flags) : bool :=
  hasGauge m && match shape m with Angular => true | Bullet => false end.

Definition isBullet (m : mode_flags) : bool :=
  hasGauge m && match shape m with Bullet => true | Angular => false end.

Record layout_env : Type := {
  size_w : R;
  size_h : R;
  digits : R;
  cn_innerRadius : R;
  cn_bulletHeight : R
}.

Definition radius (e : layout_env) : R :=
  Rmin (0.85 * size_w e / 2) (size_h e * 0.65 - 20).

Definition innerRadius (e : layout_env) : R := cn_innerRadius e * radius e.

Definition bulletHeight (e : layout_env) : R := Rmin (cn_bulletHeight e) (size_h e / 2).

(** [(bignumberFontSize, deltaFontSize)] as [plot] assigns them. *)
Definition font_sizes (m : mode_flags) (e : layout_env) : R * R :=
  if negb (hasGauge m) then
    let big := Rmin (size_w e / digits e) (size_h e / 3) in
    (big, if hasBigNumber m then 0.5 * big else big)
  else
    let '(big, dlt) :=
      if isAngular m then
        let big := 2 * innerRadius e / digits e in (big, 0.35 * big)
      else
        let big := Rmin (0.2 * size_w e / digits e) (bulletHeight e) in
        (big, 0.5 * big) in
    (big, if negb (hasBigNumber m) then 0.75 * big else dlt).

(** ** Fit-to-box

    <<
    function fitTextInside(el, width, height) {
        var textBB = Drawing.bBox(el.node());
        var ratio = Math.min(width / textBB.width, height / textBB.height);
        return ratio;
    }
    numbers.attr('transform', function() {
        var scaleRatio = fitTextInside(numbers, numbersMaxWidth, numbersMaxHeight);
        return strTranslate(numbersX, numbersY) + ' ' +
               (scaleRatio < 1 ? 'scale(' + scaleRatio + ')' : '');
    });
    >>
    The measured box is [(bb_width, bb_height)]. *)

Definition fitTextInside (width height bb_width bb_height : R) : R :=
  Rmin (width / bb_width) (height / bb_height).

(** The [scale(...)] part of the transform, [None] for the empty string. *)
Definition scale_part (scaleRatio : R) : option R :=
  if Rlt_dec scaleRatio 1 then Some scaleRatio else None.

(** The scale the transform applies: no [scale(...)] means scale 1. *)
Definition applied_scale (width height bb_width bb_height : R) : R :=
  match scale_part (fitTextInside width height bb_width bb_height) with
  | Some r => r
  | None => 1
  end.

(** ** Scene Composer: d3 (v3) data join by index

    [sel = parent.selectAll('g.c').data(ds)] pairs the existing [c]
    children with [ds] by index; [sel.enter().append('g')] appends the
    surplus data as new children at the end of [parent];
    [sel.exit().remove()] removes the surplus children. A child keeps its
    place in the parent's list, which is the SVG z-order (later children
    are painted on top). *)

Record step : Type := {
  step_range_lo : R;
  step_range_hi : R;
  step_color : string
}.

(** The datum bound to a drawn gauge sub-element. *)
Inductive elem : Type :=
| EBg                 (* gaugeBg *)
| EStep (s : step)    (* an element of trace.gauge.steps *)
| EThreshold          (* thresholdArc / threshold line *)
| EValue              (* trace.gauge.value / cd[0] *)
| EOutline.           (* gaugeOutline *)

(** A child of a gauge group: its class and its datum. *)
Definition node : Type := (string * elem)%type.

Fixpoint join_go (cls : string) (ds : list elem) (children : list node)
  : list node * list elem :=
  match children with
  | [] => ([], ds)
  | (c, e) :: rest =>
      if String.eqb c cls then
        match ds with
        | d :: ds' => let '(r, rem) := join_go cls ds' rest in ((c, d) :: r, rem)
        | [] => join_go cls [] rest
        end
      else let '(r, rem) := join_go cls ds rest in ((c, e) :: r, rem)
  end.

Definition join (cls : string) (ds : list elem) (children : list node) : list node :=
  let '(r, rem) := join_go cls ds children in r ++ map (pair cls) rem.

Definition zorder (children : list node) : list elem := map snd children.

(** JS values a threshold value can take, and their truthiness. *)
Inductive jsval : Type :=
| JUndef
| JNumber (x : jsnum).

Definition js_truthy (v : jsval) : bool :=
  match v with
  | JUndef => false
  | JNumber (Num r) => if Req_EM_T r 0 then false else true
  | JNumber NaN => false
  | JNumber _ => true
  end.

(** Angular gauge:
    <<
    var arcs = [gaugeBg].concat(trace.gauge.steps);
    if(v) arcs.push(thresholdArc);
    var targetArc = gauge.selectAll('g.targetArc').data(arcs);  ...
    var fgArc = gauge.selectAll('g.fgArc').data([trace.gauge.value]);  ...
    var gaugeBorder = gauge.selectAll('g.gaugeOutline').data([gaugeOutline]);  ...
    >> *)
Definition angular_arcs (steps : list step) (thr : jsval) : list elem :=
  [EBg] ++ map EStep steps ++ (if js_truthy thr then [EThreshold] else []).

Definition draw_angular (steps : list step) (thr : jsval) (gauge : list node) : list node :=
  join "gaugeOutline"%string [EOutline]
    (join "fgArc"%string [EValue]
       (join "targetArc"%string (angular_arcs steps thr) gauge)).

Definition angular_classes : list string := ["targetArc"%string; "fgArc"%string; "gaugeOutline"%string].

(** Bullet gauge:
    <<
    var targetBullet = bullet.selectAll('g.targetBullet').data([gaugeBg].concat(trace.gauge.steps));
    var fgBullet = bullet.selectAll('g.fgBullet').data(cd);
    data = cd.filter(function() {return trace.gauge.threshold.value;});
    var threshold = bullet.selectAll('g.threshold').data(data);
    var bulletOutline = bullet.selectAll('g.bulletOutline').data([gaugeOutline]);
    >> *)
Definition bullet_threshold_data (thr : jsval) : list elem :=
  if js_truthy thr then [EThreshold] else [].

Definition draw_bullet (steps : list step) (thr : jsval) (bullet : list node) : list node :=
  join "bulletOutline"%string [EOutline]
    (join "threshold"%string (bullet_threshold_data thr)
       (join "fgBullet"%string [EValue]
          (join "targetBullet"%string ([EBg] ++ map EStep steps) bullet))).

Definition bullet_classes : list string :=
  ["targetBullet"%string; "fgBullet"%string; "threshold"%string; "bulletOutline"%string].

(** The z-order as the spec words it: background, steps in declaration
    order, threshold, value shape, outline. *)
Definition spec_zorder (steps : list step) (has_threshold : bool) : list elem :=
  [EBg] ++ map EStep steps ++ (if has_threshold then [EThreshold] else []) ++ [EValue; EOutline].

(** The z-order the bullet gauge's sequence of joins produces on a fresh
    group. *)
Definition bullet_zorder (steps : list step) (has_threshold : bool) : list elem :=
  [EBg] ++ map EStep steps ++ [EValue] ++
  (if has_threshold then [EThreshold] else []) ++ [EOutline].

Definition step0 : step :=
  {| step_range_lo := 0; step_range_hi := 1; step_color := "red"%string |}.

(** Successive renders of one gauge group, oldest first; a render is
    [(trace.gauge.steps, trace.gauge.threshold.value)]. *)
Fixpoint angular_history (hs : list (list step * jsval)) (gauge : list node) : list node :=
  match hs with
  | [] => gauge
  | (steps, thr) :: hs => angular_history hs (draw_angular steps thr gauge)
  end.

Fixpoint bullet_history (hs : list (list step * jsval)) (bullet : list node) : list node :=
  match hs with
  | [] => bullet
  | (steps, thr) :: hs => bullet_history hs (draw_bullet steps thr bullet)
  end.

(** Same number of steps and same threshold truthiness as [(steps, thr)]. *)
Definition same_shape (steps : list step) (thr : jsval) (h : list step * jsval) : Prop :=
  List.length (fst h) = List.length steps /\ js_truthy (snd h) = js_truthy thr.

(** ** Transition Orchestrator

    Each animated group (number tspan, delta tspan, angular value arc,
    bullet value bar) is one DOM node with a d3 (v3) transition lock. The
    d3 3.5 lifecycle is modelled with the default delay 0:
    [selection.transition()] only schedules a transition with a fresh id;
    scheduled transitions start in creation order on a later timer frame
    ([EStart] starts the oldest one). Starting a transition interrupts the
    node's active one (firing its [interrupt] listeners) and calls the
    tween factories with the node's datum at that time; ticks call the
    tween with the eased time; the last tick fires [end] and clears the
    lock. Events may interleave in any order, which includes every order
    the d3 timer queue produces. The handlers are the ones [plot]
    registers:
    <<
    number.transition()...
        .each('end', function() { onComplete && onComplete(); })
        .each('interrupt', function() { onComplete && onComplete(); })
        .attrTween('text', function() {
            var interpolator = d3.interpolateNumber(cd[0].lastY, cd[0].y); ... })
    delta.transition()...
        .each('end', function(d) { trace._deltaLastValue = deltaValue(d); onComplete && onComplete(); })
        .each('interrupt', function() { onComplete && onComplete(); })
        .attrTween('text', function(d) {
            var to = deltaValue(d);
            var from = trace._deltaLastValue;
            var interpolator = d3.interpolateNumber(from, to); ... })
    >>
    [fgArcPath] and [fgBullet.select('rect')] register the same handlers as
    [number], with tween end points fixed by the render's closure. The [d]
    passed to a listener or tween factory is the node's datum at that time:
    [numbers.select('tspan.delta')] rebinds it to [cd[0]] on every render,
    with or without transition. Values are JS numbers: a delta can be NaN. *)

Module Transition.

Inductive group : Type := GNumber | GDelta | GArc | GBullet.

(** A scheduled transition: its d3 id, whether the render that created it
    had an [onComplete] callback, and the end points its render's closure
    gives the tween (the delta tween reads its own at start). *)
Record pend : Type := {
  p_id : nat;
  p_lastY : jsnum;
  p_y : jsnum;
  p_cb : bool
}.

(** A running transition: its d3 id, the tween's end points, and whether
    the render that created it had an [onComplete] callback. *)
Record tr : Type := {
  tr_id : nat;
  tr_from : jsnum;
  tr_to : jsnum;
  tr_cb : bool
}.

Inductive obs : Type :=
| OStart (id : nat) (from to : jsnum) (cb : bool)
| OComplete (id : nat)                 (* onComplete() called by transition [id] *)
| OCommit (v : jsnum)                  (* trace._deltaLastValue = v *)
| OText (v : jsnum).                   (* value written to the node *)

Record tstate : Type := {
  deltaLast : option jsnum;  (* trace._deltaLastValue; None is undefined *)
  datum : jsnum;             (* deltaValue of the node's datum *)
  pending : list pend;       (* scheduled transitions, oldest first *)
  active : option tr;
  next_id : nat;
  log : list obs             (* most recent first *)
}.

(** Before the first render no datum is bound. *)
Definition init : tstate :=
  {| deltaLast := None; datum := NaN; pending := []; active := None;
     next_id := 0; log := [] |}.

(** [if(!trace._deltaLastValue) trace._deltaLastValue = 0;] *)
Definition guard_last (l : option jsnum) : option jsnum :=
  match l with
  | None => Some (Num 0)
  | Some x => if js_truthy (JNumber x) then Some x else Some (Num 0)
  end.

(** [trace._deltaLastValue] as [d3.interpolateNumber] reads it ([+undefined]
    is NaN). *)
Definition last_value (l : option jsnum) : jsnum :=
  match l with None => NaN | Some x => x end.

Definition emit (o : obs) (s : tstate) : tstate :=
  {| deltaLast := deltaLast s; datum := datum s; pending := pending s;
     active := active s; next_id := next_id s; log := o :: log s |}.

Definition call_onComplete (a : tr) (s : tstate) : tstate :=
  if tr_cb a then emit (OComplete (tr_id a)) s else s.

(** The [interrupt] listener. *)
Definition on_interrupt (g : group) (a : tr) (s : tstate) : tstate :=
  call_onComplete a s.

(** The [end] listener. *)
Definition on_end (g : group) (a : tr) (s : tstate) : tstate :=
  match g with
  | GDelta =>
      call_onComplete a
        {| deltaLast := Some (datum s); datum := datum s; pending := pending s;
           active := active s; next_id := next_id s;
           log := OCommit (datum s) :: log s |}
  | _ => call_onComplete a s
  end.

Definition set_active (o : option tr) (s : tstate) : tstate :=
  {| deltaLast := deltaLast s; datum := datum s; pending := pending s;
     active := o; next_id := next_id s; log := log s |}.

Inductive event : Type :=
| ERender (hasTransition : bool) (hasCallback : bool) (lastY y : jsnum)
    (* a render: [y] is the group's new value (cd[0].y, or deltaValue(cd[0])
       for the delta group), [lastY] is the tween's start (cd[0].lastY) *)
| EStart                               (* a timer frame starts the oldest scheduled transition *)
| ETick (t : R)                        (* a frame of the active transition, eased time [t] *)
| EEnd.                                (* its last frame *)

Definition step (g : group) (s : tstate) (e : event) : tstate :=
  match e with
  | ERender ht cb lastY y =>
      let s := {| deltaLast := guard_last (deltaLast s); datum := y;
                  pending := pending s; active := active s;
                  next_id := next_id s; log := log s |} in
      if ht then
        {| deltaLast := deltaLast s; datum := datum s;
           pending := pending s ++
             [{| p_id := next_id s; p_lastY := lastY; p_y := y; p_cb := cb |}];
           active := active s; next_id := S (next_id s); log := log s |}
      else emit (OText y) s
  | EStart =>
      match pending s with
      | [] => s
      | p :: rest =>
          let s := match active s with
                   | Some a => set_active None (on_interrupt g a s)
                   | None => s
                   end in
          let from := match g with GDelta => last_value (deltaLast s) | _ => p_lastY p end in
          let to := match g with GDelta => datum s | _ => p_y p end in
          {| deltaLast := deltaLast s; datum := datum s; pending := rest;
             active := Some {| tr_id := p_id p; tr_from := from; tr_to := to;
                               tr_cb := p_cb p |};
             next_id := next_id s; log := OStart (p_id p) from to (p_cb p) :: log s |}
      end
  | ETick t =>
      match active s with
      | Some a => emit (OText (interpolateNumber (tr_from a) (tr_to a) t)) s
      | None => s
      end
  | EEnd =>
      match active s with
      | Some a => set_active None (on_end g a s)
      | None => s
      end
  end.

Fixpoint run (g : group) (s : tstate) (evs : list event) : tstate :=
  match evs with
  | [] => s
  | e :: evs => run g (step g s e) evs
  end.


Fixpoint completions (id : nat) (l : list obs) : nat :=
  match l with
  | [] => 0
  | OComplete j :: l => (if Nat.eqb j id then 1 else 0) + completions id l
  | _ :: l => completions id l
  end%nat.

(** Started with a callback. *)
Fixpoint started_cb (id : nat) (l : list obs) : bool :=
  match l with
  | [] => false
  | OStart j _ _ cb :: l => (Nat.eqb j id && cb) || started_cb id l
  | _ :: l => started_cb id l
  end.

Definition is_active (id : nat) (s : tstate) : bool :=
  match active s with Some a => Nat.eqb (tr_id a) id | None => false end.

End Transition.

(** ** Render: synchronous path versus transitions

    <<
    var hasTransition = transitionOpts && transitionOpts.duration > 0;
    if(hasTransition) {
        if(makeOnCompleteCallback) { onComplete = makeOnCompleteCallback(); }
    }
    ...
    if(hasTransition) { number.transition()... } else { number.text(fmt(cd[0].y) + bignumberSuffix); }
    if(hasTransition) { delta.transition()... } else { delta.text(... deltaValue(d) ...); }
    if(hasTransition) { fgArcPath.transition()...attrTween('d', arcTween(valueArcPath,
                            valueToAngle(cd[0].lastY), valueToAngle(cd[0].y)));
    } else { fgArcPath.attr('d', valueArcPath.endAngle(valueToAngle(cd[0].y))); }
    if(hasTransition) { fgBullet.select('rect').transition()...
                            .attr('width', Math.max(0, ax.c2p(Math.min(trace.max, cd[0].y))));
    } else { fgBullet.select('rect').attr('width', Math.max(0, ax.c2p(Math.min(trace.max, cd[0].y)))); }
    >>
    [transitionOpts] is [None] when absent and [Some duration] otherwise;
    the bullet axis map [ax.c2p] is a parameter. *)

Module Render.

Definition hasTransition (transitionOpts : option R) : bool :=
  match transitionOpts with
  | None => false
  | Some duration => if Rlt_dec 0 duration then true else false
  end.

(** What a render does to an animated group: set its final value now, or
    start a transition with completion listeners towards [to] (from the
    given value, or from the current attribute when [None]). *)
Inductive action : Type :=
| SetNow (v : jsnum)
| Animate (from : option jsnum) (to : jsnum).

Record render_out : Type := {
  onComplete_created : bool;
  number_act : action;
  delta_act : action;
  arc_act : action;
  bullet_act : action
}.

Section WithAxis.

Variable c2p : R -> R.

Definition plot_groups (transitionOpts : option R) (makeOnCompleteCallback : bool)
    (trace_min trace_max lastY y dv deltaLastValue : R) : render_out :=
  let ht := hasTransition transitionOpts in
  let width := Num (Rmax 0 (c2p (Rmin trace_max y))) in
  {| onComplete_created := ht && makeOnCompleteCallback;
     number_act := if ht then Animate (Some (Num lastY)) (Num y) else SetNow (Num y);
     delta_act := if ht then Animate (Some (Num deltaLastValue)) (Num dv) else SetNow (Num dv);
     arc_act :=
       if ht then Animate (Some (valueToAngle (Num trace_min) (Num trace_max) (Num lastY)))
                          (valueToAngle (Num trace_min) (Num trace_max) (Num y))
       else SetNow (valueToAngle (Num trace_min) (Num trace_max) (Num y));
     bullet_act := if ht then Animate None width else SetNow width |}.

End WithAxis.

End Render.

(** ** Axis Adapter: [mockAxis] over a heap of JS objects

    Objects live at locations of a bump-allocated heap; a field holding
    an object holds its location, so [axisIn.tickfont = opts.tickfont]
    aliases the caller's font object. *)

Module Heap.

Inductive value : Type :=
| VUndef
| VNum (r : R)
| VStr (s : string)
| VBool (b : bool)
| VRef (l : nat).

Definition obj : Type := list (string * value).

Record heap : Type := {
  mem : nat -> option obj;
  next : nat
}.

Definition get_field (o : obj) (k : string) : value :=
  match find (fun p => String.eqb (fst p) k) o with
  | Some (_, v) => v
  | None => VUndef
  end.

(** [obj[k]] for the object at [l]. *)
Definition read (h : heap) (l : nat) (k : string) : value :=
  match mem h l with
  | Some o => get_field o k
  | None => VUndef
  end.

(** [obj[k] = v] for the object at [l]. *)
Definition write (h : heap) (l : nat) (k : string) (v : value) : heap :=
  match mem h l with
  | Some o =>
      {| mem := fun l' => if Nat.eqb l' l then Some ((k, v) :: o) else mem h l';
         next := next h |}
  | None => h
  end.

(** An object literal: a fresh location. *)
Definition alloc (h : heap) (o : obj) : nat * heap :=
  (next h,
   {| mem := fun l => if Nat.eqb l (next h) then Some o else mem h l;
      next := S (next h) |}).

Section MockAxis.

(** [String(v)] for the [_id] concatenation; numbers are printed by
    the engine. *)
Variable num_to_string : R -> string.

Definition js_to_string (v : value) : string :=
  match v with
  | VUndef => "undefined"
  | VNum r => num_to_string r
  | VStr s => s
  | VBool true => "true"
  | VBool false => "false"
  | VRef _ => "[object Object]"
  end%string.

(** [handleAxisDefaults(axisIn, axisOut, coerce, axisOptions, fullLayout)]
    and [handleAxisPositionDefaults(axisIn, axisOut, coerce, axisOptions)]
    (the [coerce] closure writes into [axisOut]). They are not in the
    sources; the arguments are the locations of [axisIn], [axisOut],
    [axisOptions] and [fullLayout]. *)
Definition axis_helper : Type := heap -> nat -> nat -> nat -> nat -> heap.

(** Modelled from the spec: the generic Cartesian-axis defaults handlers
    belong to the external Axis Subsystem, which receives the synthetic
    axis descriptor built by the Axis Adapter. They are modelled as
    changing only the objects they are handed to fill in ([axisIn],
    [axisOut], [axisOptions]) and objects they allocate themselves. *)
Definition helper_frame (f : axis_helper) : Prop :=
  forall h i o p lay l,
    (l < next h)%nat -> l <> i -> l <> o -> l <> p ->
    mem (f h i o p lay) l = mem h l /\ (next h <= next (f h i o p lay))%nat.

Variables handleAxisDefaults handleAxisPositionDefaults : axis_helper.

(** [mockAxis(gd, opts, zrange)]: [opts] is the location of
    [trace.gauge.axis], [layout] that of [gd._fullLayout]. *)
Definition mockAxis (h : heap) (layout opts : nat) (zrange : value) : nat * heap :=
  let axisIn : obj :=
    [("type", VStr "linear"); ("ticks", VStr "outside"); ("range", zrange);
     ("tickmode", read h opts "tickmode"); ("nticks", read h opts "nticks");
     ("tick0", read h opts "tick0"); ("dtick", read h opts "dtick");
     ("tickvals", read h opts "tickvals"); ("ticktext", read h opts "ticktext");
     ("ticklen", read h opts "ticklen"); ("tickwidth", read h opts "tickwidth");
     ("tickcolor", read h opts "tickcolor");
     ("showticklabels", read h opts "showticklabels");
     ("tickfont", read h opts "tickfont"); ("tickangle", read h opts "tickangle");
     ("tickformat", read h opts "tickformat");
     ("exponentformat", read h opts "exponentformat");
     ("separatethousands", read h opts "separatethousands");
     ("showexponent", read h opts "showexponent");
     ("showtickprefix", read h opts "showtickprefix");
     ("tickprefix", read h opts "tickprefix");
     ("showticksuffix", read h opts "showticksuffix");
     ("ticksuffix", read h opts "ticksuffix");
     ("title", read h opts "title");
     ("showline", VBool true); ("anchor", VStr "free"); ("position", VNum 1)]%string in
  let '(li, h1) := alloc h axisIn in
  let axisOut : obj :=
    [("type", VStr "linear");
     ("_id", VStr ("x" ++ js_to_string (read h1 opts "_id")))]%string in
  let '(lo, h2) := alloc h1 axisOut in
  let axisOptions : obj :=
    [("letter", VStr "x"); ("font", read h2 layout "font");
     ("noHover", VBool true); ("noTickson", VBool true)]%string in
  let '(lp, h3) := alloc h2 axisOptions in
  let h4 := handleAxisDefaults h3 li lo lp layout in
  let h5 := handleAxisPositionDefaults h4 li lo lp layout in
  (lo, h5).

End MockAxis.

(** A defaults handler that fills one field of [axisOut]. *)
Definition demo_defaults : axis_helper :=
  fun h i o p lay => write h o "visible"%string (VBool true).

(** A heap holding [fullLayout] (location 0) and [trace.gauge.axis]
    (location 1). *)
Definition demo_heap : heap :=
  {| mem := fun l =>
       match l with
       | 0 => Some [("font"%string, VUndef)]
       | 1 => Some [("_id"%string, VStr "gauge"%string); ("tickmode"%string, VStr "auto"%string)]
       | _ => None
       end%nat;
     next := 2 |}.

End Heap.

(** ** Domain box

    <<
    var domain = trace.domain;
    var size = Lib.extendFlat({}, fullLayout._size, {
        w: fullLayout._size.w * (domain.x[1] - domain.x[0]),
        h: fullLayout._size.h * (domain.y[1] - domain.y[0]),
        l: fullLayout._size.l + fullLayout._size.w * domain.x[0],
        r: fullLayout._size.r + fullLayout._size.w * (1 - domain.x[1]),
        t: fullLayout._size.t + fullLayout._size.h * (1 - domain.y[1]),
        b: fullLayout._size.b + fullLayout._size.h * (domain.y[0])
    });
    >>
    Only the six fields the code overrides are modelled. *)

Record plot_size : Type := {
  sz_l : R; sz_r : R; sz_t : R; sz_b : R; sz_w : R; sz_h : R
}.

Definition domain_size (fs : plot_size) (x0 x1 y0 y1 : R) : plot_size :=
  {| sz_w := sz_w fs * (x1 - x0);
     sz_h := sz_h fs * (y1 - y0);
     sz_l := sz_l fs + sz_w fs * x0;
     sz_r := sz_r fs + sz_w fs * (1 - x1);
     sz_t := sz_t fs + sz_h fs * (1 - y1);
     sz_b := sz_b fs + sz_h fs * y0 |}.

(** ** Horizontal placement of title and numbers

    <<
    var anchor = {'left': 'start', 'center': 'middle', 'right': 'end'};
    var position = {'left': 0, 'center': 0.5, 'right': 1};
    ...
    var centerX = size.l + size.w / 2;
    titleX = size.l + size.w * position[trace.title.align];
    numbersMaxWidth = 0.85 * size.w;
    numbersMaxHeight = size.h;
    if(!hasGauge) {
        numbersX = size.l + position[trace.number.align] * size.w;
    } else {
        if(isAngular) {
            numbersX = centerX - 0.85 * innerRadius + 2 * 0.85 * innerRadius * position[trace.number.align];
            numbersMaxWidth = 2 * innerRadius * 0.85;
            numbersMaxHeight = innerRadius * 0.85;
        }
        if(isBullet) {
            var padding = cn.bulletPadding;
            var p = (1 - cn.bulletTitleSize) + padding;
            numbersMaxWidth = (cn.bulletTitleSize - padding) * size.w;
            titleX = size.l + (cn.bulletTitleSize - padding) * size.w * position[trace.title.align];
            numbersX = size.l + (p + (1 - p) * position[trace.number.align]) * size.w;
        }
    }
    >>
    [cn.bulletTitleSize] and [cn.bulletPadding] come from [./constants]
    and are parameters [bts] and [pad]; [l] is [size.l]. *)

Inductive align : Type := ALeft | ACenter | ARight.

Definition anchor (a : align) : string :=
  match a with
  | ALeft => "start"%string
  | ACenter => "middle"%string
  | ARight => "end"%string
  end.

Definition position (a : align) : R :=
  match a with
  | ALeft => 0
  | ACenter => 0.5
  | ARight => 1
  end.

(** SVG [text-anchor] (left-to-right text): the fraction of a text's
    width lying left of its anchor point. *)
Definition anchor_frac (s : string) : R :=
  if String.eqb s "middle" then 0.5
  else if String.eqb s "end" then 1
  else 0.

(** Horizontal extent of a text of width [width] anchored at [x]. *)
Definition text_extent (x : R) (anchor_s : string) (width : R) : R * R :=
  (x - anchor_frac anchor_s * width, x + (1 - anchor_frac anchor_s) * width).

(** [(numbersX, numbersMaxWidth, numbersMaxHeight)]. With a gauge, exactly
    one of [isAngular] and [isBullet] holds, so the two [if]s are a match on
    the shape. *)
Definition numbers_box (m : mode_flags) (e : layout_env) (l bts pad : R) (a : align)
  : R * R * R :=
  let w := size_w e in
  let centerX := l + w / 2 in
  if negb (hasGauge m) then (l + position a * w, 0.85 * w, size_h e)
  else
    match shape m with
    | Angular =>
        (centerX - 0.85 * innerRadius e + 2 * 0.85 * innerRadius e * position a,
         2 * innerRadius e * 0.85, innerRadius e * 0.85)
    | Bullet =>
        let p := (1 - bts) + pad in
        (l + (p + (1 - p) * position a) * w, (bts - pad) * w, size_h e)
    end.

(** [(titleX, width passed to fitTextInside)]; the height passed is
    [size.h]:
    <<
    if(isBullet) {
        scaleRatio = fitTextInside(title, (cn.bulletTitleSize - cn.bulletPadding) * size.w, size.h);
    } else {
        scaleRatio = fitTextInside(title, size.w, size.h);
    }
    >> *)
Definition title_box (m : mode_flags) (e : layout_env) (l bts pad : R) (a : align) : R * R :=
  if isBullet m then (l + (bts - pad) * size_w e * position a, (bts - pad) * size_w e)
  else (l + size_w e * position a, size_w e).

(** <<
    var bulletLeft = hasTitle ? cn.bulletTitleSize : 0;
    bullet.attr('transform', 'translate(' + (size.l + (bulletLeft * size.w)) + ',' + bulletVerticalMargin + ')');
    >> *)
Definition bulletLeft (hasTitle : bool) (bts : R) : R := if hasTitle then bts else 0.

Definition bullet_x (e : layout_env) (l : R) (hasTitle : bool) (bts : R) : R :=
  l + bulletLeft hasTitle bts * size_w e.

(** ** Angular gauge geometry

    <<
    var isWide = (size.w / 2 > size.h * 0.65 - 20);
    numbersY = size.t + size.h / 2;
    if(isWide) numbersY = size.t + size.h - (0.15 * size.h);
    gaugePosition = [centerX, numbersY];
    function arcPathGenerator(size) {
        return d3.svg.arc()
              .innerRadius((innerRadius + radius) / 2 - size / 2 * (radius - innerRadius))
              .outerRadius((innerRadius + radius) / 2 + size / 2 * (radius - innerRadius))
              .startAngle(-theta);
    }
    var _transFn = function(rad) {
        return strTranslate(gaugePosition[0] + radius * Math.cos(rad), gaugePosition[1] - radius * Math.sin(rad));
    };
    >> *)

Definition isWide (e : layout_env) : bool :=
  if Rlt_dec (size_h e * 0.65 - 20) (size_w e / 2) then true else false.

Definition gaugePosition (e : layout_env) (l t : R) : R * R :=
  (l + size_w e / 2,
   if isWide e then t + size_h e - 0.15 * size_h e else t + size_h e / 2).

(** The inner and outer radius of [arcPathGenerator(size)]. *)
Definition arcPathGenerator (e : layout_env) (size : R) : R * R :=
  ((innerRadius e + radius e) / 2 - size / 2 * (radius e - innerRadius e),
   (innerRadius e + radius e) / 2 + size / 2 * (radius e - innerRadius e)).

(** Bounding box [(left, right, top, bottom)] of the background arc
    [arcPathGenerator(1)] from [valueToAngle(min) = -PI/2] to
    [valueToAngle(max) = PI/2]: d3 arc angles run clockwise from
    12 o'clock, so this half ring of outer radius [R] around [(gx, gy)]
    spans [[gx - R, gx + R]] and [[gy - R, gy]] (SVG y grows downwards). *)
Definition gauge_bg_extent (e : layout_env) (l t : R) : R * R * R * R :=
  let '(gx, gy) := gaugePosition e l t in
  let R0 := snd (arcPathGenerator e 1) in
  (gx - R0, gx + R0, gy - R0, gy).

(** The point [_transFn(rad)] translates an angular tick to. *)
Definition tick_point (e : layout_env) (gp : R * R) (rad : R) : R * R :=
  (fst gp + radius e * cos rad, snd gp - radius e * sin rad).

(** ** Tweens and texts

    d3 (v3): [d3.interpolate(a, b)] on numbers is
    [d3.interpolateNumber(a, b)], i.e. [function(t) { return a * (1 - t) + b * t; }].
    <<
    function arcTween(arc, endAngle, newAngle) {
        return function() {
            var interpolate = d3.interpolate(endAngle, newAngle);
            return function(t) { return arc.endAngle(interpolate(t))(); };
        };
    }
    >>
    The arc generator with its end angle set is a parameter [arc]. *)

Definition arcTween {A : Type} (arc : jsnum -> A) (endAngle newAngle : jsnum) (t : R) : A :=
  arc (interpolateNumber endAngle newAngle t).

(** [a >= b] on JS numbers: false as soon as one side is NaN. *)
Definition js_ge (x y : jsnum) : bool :=
  match x, y with
  | Num a, Num b => if Rle_dec b a then true else false
  | PosInf, Num _ | PosInf, PosInf | PosInf, NegInf
  | Num _, NegInf | NegInf, NegInf => true
  | _, _ => false
  end.

(** [value === 0]. *)
Definition js_is_zero (v : jsnum) : bool :=
  match v with
  | Num r => if Req_EM_T r 0 then true else false
  | _ => false
  end.

Section Texts.

(** [fmt = d3.format(trace.valueformat)] and
    [deltaFmt = d3.format(trace.delta.valueformat)]. *)
Variable fmt : jsnum -> string.
Variable deltaFmt : jsnum -> string.
(** [trace.delta.increasing.symbol], [trace.delta.decreasing.symbol],
    [trace.delta.increasing.color], [trace.delta.decreasing.color]. *)
Variables inc_symbol dec_symbol inc_color dec_color : string.

(** <<
    var bignumberSuffix = trace.number.suffix;
    if(bignumberSuffix) bignumberSuffix = ' ' + bignumberSuffix;
    >> *)
Definition bignumberSuffix (suffix : string) : string :=
  if String.eqb suffix "" then suffix else (" " ++ suffix)%string.

(** [number.text(fmt(cd[0].y) + bignumberSuffix)]. *)
Definition number_static (suffix : string) (y : jsnum) : string :=
  (fmt y ++ bignumberSuffix suffix)%string.

(** The [text] of frame [t] of the number tween:
    [that.text(fmt(interpolator(t)) + bignumberSuffix)] with
    [interpolator = d3.interpolateNumber(cd[0].lastY, cd[0].y)]. *)
Definition number_frame (suffix : string) (lastY y : jsnum) (t : R) : string :=
  (fmt (interpolateNumber lastY y t) ++ bignumberSuffix suffix)%string.

(** <<
    var deltaValue = function(d) {
        var value = trace.delta.showpercentage ? d.relativeDelta : d.delta;
        return value;
    };
    var deltaFormatText = function(value) {
        if(value === 0) return '-';
        return (value > 0 ? trace.delta.increasing.symbol : trace.delta.decreasing.symbol) + deltaFmt(value);
    };
    var deltaFill = function(d) {
        return d.delta >= 0 ? trace.delta.increasing.color : trace.delta.decreasing.color;
    };
    >> *)
Definition deltaValue (showpercentage : bool) (delta relativeDelta : jsnum) : jsnum :=
  if showpercentage then relativeDelta else delta.

Definition deltaFormatText (value : jsnum) : string :=
  if js_is_zero value then "-"%string
  else ((if js_gt value (Num 0) then inc_symbol else dec_symbol) ++ deltaFmt value)%string.

Definition deltaFill (delta : jsnum) : string :=
  if js_ge delta (Num 0) then inc_color else dec_color.

(** [delta.text(function(d) { return deltaFormatText(deltaValue(d)); })]. *)
Definition delta_static (showpercentage : bool) (delta relativeDelta : jsnum) : string :=
  deltaFormatText (deltaValue showpercentage delta relativeDelta).

(** Frame [t] of the delta tween, from [from = trace._deltaLastValue] to
    [to = deltaValue(d)]. *)
Definition delta_frame (from : jsnum) (showpercentage : bool) (delta relativeDelta : jsnum)
    (t : R) : string :=
  deltaFormatText (interpolateNumber from (deltaValue showpercentage delta relativeDelta) t).

End Texts.

(** ** The tspans of the numbers text

    <<
    if(hasBigNumber) data.push(numberSpec);
    if(hasDelta) data.push(deltaSpec);
    if(trace.delta.position === 'left') data.reverse();
    var sel = numbers.selectAll('tspan').data(data);
    ...
        .attr('class', function(d) { return d.class;})
        .attr('dx', function(d, i) {
            var pos = trace.delta.position;
            if(i === 1 && (pos === 'left' || pos === 'right')) return 10;
            return undefined;
        });
    >>
    A tspan is represented by its class. *)

Inductive delta_position : Type := PTop | PBottom | PLeft | PRight.

Definition numbers_tspans (hasBig hasDelta : bool) (pos : delta_position) : list string :=
  let data := (if hasBig then ["number"%string] else []) ++
              (if hasDelta then ["delta"%string] else []) in
  match pos with
  | PLeft => rev data
  | _ => data
  end.

Definition tspan_dx (pos : delta_position) (i : nat) : option R :=
  if Nat.eqb i 1 && match pos with PLeft | PRight => true | _ => false end
  then Some 10 else None.

(** ** Bullet geometry

    <<
    var innerBulletHeight = trace.gauge.value.height * bulletHeight;
    targetBullet.select('rect')
          .attr('width', function(d) { return Math.max(0, ax.c2p(d.range[1] - d.range[0]));})
          .attr('x', function(d) { return ax.c2p(d.range[0]);})
    fgBullet.select('rect')
          .attr('height', innerBulletHeight)
          .attr('y', (bulletHeight - innerBulletHeight) / 2)
          .attr('width', Math.max(0, ax.c2p(Math.min(trace.max, cd[0].y))));
    threshold.select('line')
        .attr('x1', ax.c2p(trace.gauge.threshold.value))
        .attr('x2', ax.c2p(trace.gauge.threshold.value))
        .attr('y1', (1 - trace.gauge.threshold.height) / 2 * bulletHeight)
        .attr('y2', (1 - (1 - trace.gauge.threshold.height) / 2) * bulletHeight)
    >>
    The [bulletOutline] rect is drawn like a [targetBullet] rect. *)

(** [(x, width)] of a [targetBullet] or [bulletOutline] rect for a datum
    with [range = [r0, r1]]. *)
Definition bullet_rect (c2p : R -> R) (r0 r1 : R) : R * R :=
  (c2p r0, Rmax 0 (c2p (r1 - r0))).

(** Width of the value bar; its [x] is left unset, i.e. 0. *)
Definition bullet_bar_width (c2p : R -> R) (trace_max y : R) : R :=
  Rmax 0 (c2p (Rmin trace_max y)).

(** [(y, height)] of the value bar. *)
Definition bullet_bar_y (bh value_height : R) : R * R :=
  let innerBulletHeight := value_height * bh in
  ((bh - innerBulletHeight) / 2, innerBulletHeight).

(** [(x1, x2, y1, y2)] of the threshold line. *)
Definition threshold_line (c2p : R -> R) (bh v th : R) : R * R * R * R :=
  (c2p v, c2p v, (1 - th) / 2 * bh, (1 - (1 - th) / 2) * bh).

(** The bullet axis map [ax.c2p], set up by the cartesian axis code outside
    these sources for the range [[min, max]]: linear with slope [k],
    sending [min] to 0 (its rounding to 1/100 px is not modelled). *)
Definition linear_c2p (k trace_min : R) (x : R) : R := k * (x - trace_min).

(** ** Layers of a trace group

    <<
    var title = d3.select(this).selectAll('text.title').data(cd); ...
    var numbers = d3.select(this).selectAll('text.numbers').data(cd);
    numbers.enter().append('text').classed('numbers', true); ...
    data = cd.filter(function() {return isAngular;});
    var gauge = d3.select(this).selectAll('g.gauge').data(data); ...
    var axLayer = d3.select(this).selectAll('g.angularaxis').data(data); ...
    data = cd.filter(function() {return isBullet;});
    var bullet = d3.select(this).selectAll('g.bullet').data(data); ...
    axLayer = d3.select(this).selectAll('g.bulletaxis').data(data); ...
    >>
    [cd] is the trace's calcdata, one item [cd[0]] ([EValue]). Every join
    but the numbers' one ends in [.exit().remove()]; the numbers join has
    no exit, so surplus [text.numbers] children stay ([join_keep]). *)

Fixpoint join_keep_go (cls : string) (ds : list elem) (children : list node)
  : list node * list elem :=
  match children with
  | [] => ([], ds)
  | (c, e) :: rest =>
      if String.eqb c cls then
        match ds with
        | d :: ds' => let '(r, rem) := join_keep_go cls ds' rest in ((c, d) :: r, rem)
        | [] => let '(r, rem) := join_keep_go cls [] rest in ((c, e) :: r, rem)
        end
      else let '(r, rem) := join_keep_go cls ds rest in ((c, e) :: r, rem)
  end.

(** A data join with enter but without exit. *)
Definition join_keep (cls : string) (ds : list elem) (children : list node) : list node :=
  let '(r, rem) := join_keep_go cls ds children in r ++ map (pair cls) rem.

Definition plot_layers (m : mode_flags) (ch : list node) : list node :=
  let cd := [EValue] in
  let angular_data := if isAngular m then cd else [] in
  let bullet_data := if isBullet m then cd else [] in
  join "bulletaxis"%string bullet_data
    (join "bullet"%string bullet_data
       (join "angularaxis"%string angular_data
          (join "gauge"%string angular_data
             (join_keep "numbers"%string cd
                (join "title"%string cd ch))))).

(** Number of children of a given class. *)
Definition count_cls (c : string) (ch : list node) : nat :=
  List.length (filter (fun n => String.eqb (fst n) c) ch).

(** * Proofs *)

(** ** Lemmas on the JS number model *)

Lemma theta_eq : theta = Num (PI / 2).
Proof.
  unfold theta, Math_PI, js_div.
  destruct (Req_EM_T 2 0) as [H|H]; [lra | reflexivity].
Qed.

Lemma valueToAngle_finite (mn mx v : R) :
  mn < mx ->
  valueToAngle (Num mn) (Num mx) (Num v) =
  Num (clamp_angle ((v - mn) / (mx - mn) * PI - PI / 2)).
Proof.
  intros Hlt.
  unfold valueToAngle, clamp_angle, js_gt.
  rewrite theta_eq. cbn [js_sub js_div js_mul js_neg Math_PI].
  destruct (Req_EM_T (mx - mn) 0) as [H|H]; [lra |].
  unfold Math_PI; cbn [js_sub js_mul js_lt].
  destruct (Rlt_dec _ (- (PI / 2))); [reflexivity |].
  destruct (Rlt_dec (PI / 2) _); reflexivity.
Qed.

Lemma PI2_pos : 0 < PI / 2.
Proof. pose proof PI_RGT_0. lra. Qed.

Lemma clamp_angle_bounds (a : R) : - (PI / 2) <= clamp_angle a <= PI / 2.
Proof.
  pose proof PI2_pos. unfold clamp_angle.
  destruct (Rlt_dec a (- (PI / 2))); [lra |].
  destruct (Rlt_dec (PI / 2) a); lra.
Qed.

Lemma clamp_angle_mono (a b : R) : a <= b -> clamp_angle a <= clamp_angle b.
Proof.
  pose proof PI2_pos. unfold clamp_angle; intros Hab.
  destruct (Rlt_dec a (- (PI / 2))); destruct (Rlt_dec (PI / 2) a);
  destruct (Rlt_dec b (- (PI / 2))); destruct (Rlt_dec (PI / 2) b); lra.
Qed.

(** The normalised position [(v - mn) / (mx - mn)], times [PI], against
    the bounds of the gauge. *)
Lemma ratio_facts (mn mx v : R) :
  mn < mx ->
  let a := (v - mn) / (mx - mn) * PI - PI / 2 in
  (v < mn -> a < - (PI / 2)) /\
  (mx < v -> PI / 2 < a) /\
  (mn <= v <= mx -> - (PI / 2) <= a <= PI / 2).
Proof.
  intros Hlt a. pose proof PI_RGT_0 as Hpi.
  set (k := (v - mn) / (mx - mn)) in a.
  assert (Hk : k * (mx - mn) = v - mn) by (unfold k; field; lra).
  subst a. repeat split; intros; nra.
Qed.

Lemma ratio_mono (mn mx v1 v2 : R) :
  mn < mx -> v1 <= v2 ->
  (v1 - mn) / (mx - mn) * PI - PI / 2 <= (v2 - mn) / (mx - mn) * PI - PI / 2.
Proof.
  intros Hlt Hv. pose proof PI_RGT_0 as Hpi.
  set (k1 := (v1 - mn) / (mx - mn)). set (k2 := (v2 - mn) / (mx - mn)).
  assert (H1 : k1 * (mx - mn) = v1 - mn) by (unfold k1; field; lra).
  assert (H2 : k2 * (mx - mn) = v2 - mn) by (unfold k2; field; lra).
  assert (k1 <= k2) by nra. nra.
Qed.

(** C1: for [min < max] and a finite input [v], [valueToAngle v] is a
    finite angle in [[-PI/2, PI/2]]; on [[min, max]] it is
    [(v - min) / (max - min) * PI - PI/2]; below [min] it is exactly
    [-PI/2], above [max] exactly [PI/2]; and it is non-decreasing in [v]. *)
Theorem valueToAngle_clamped_map (mn mx : R) (Hlt : mn < mx) :
  (forall v, exists a, valueToAngle (Num mn) (Num mx) (Num v) = Num a /\
                       - (PI / 2) <= a <= PI / 2) /\
  (forall v, mn <= v <= mx ->
     valueToAngle (Num mn) (Num mx) (Num v) = Num ((v - mn) / (mx - mn) * PI - PI / 2)) /\
  (forall v, v < mn -> valueToAngle (Num mn) (Num mx) (Num v) = Num (- (PI / 2))) /\
  (forall v, mx < v -> valueToAngle (Num mn) (Num mx) (Num v) = Num (PI / 2)) /\
  (forall v1 v2 a1 a2, v1 <= v2 ->
     valueToAngle (Num mn) (Num mx) (Num v1) = Num a1 ->
     valueToAngle (Num mn) (Num mx) (Num v2) = Num a2 -> a1 <= a2).
Proof.
  pose proof PI2_pos as Hp.
  repeat split.
  - intros v. rewrite (valueToAngle_finite _ _ _ Hlt).
    eexists; split; [reflexivity | apply clamp_angle_bounds].
  - intros v Hv. rewrite (valueToAngle_finite _ _ _ Hlt). f_equal.
    destruct (ratio_facts mn mx v Hlt) as (_ & _ & Hin).
    specialize (Hin Hv). unfold clamp_angle.
    destruct (Rlt_dec _ (- (PI / 2))); [lra |].
    destruct (Rlt_dec (PI / 2) _); [lra | reflexivity].
  - intros v Hv. rewrite (valueToAngle_finite _ _ _ Hlt). f_equal.
    destruct (ratio_facts mn mx v Hlt) as (Hlo & _ & _).
    specialize (Hlo Hv). unfold clamp_angle.
    destruct (Rlt_dec _ (- (PI / 2))); [reflexivity | lra].
  - intros v Hv. rewrite (valueToAngle_finite _ _ _ Hlt). f_equal.
    destruct (ratio_facts mn mx v Hlt) as (_ & Hhi & _).
    specialize (Hhi Hv). unfold clamp_angle.
    destruct (Rlt_dec _ (- (PI / 2))); [lra |].
    destruct (Rlt_dec (PI / 2) _); [reflexivity | lra].
  - intros v1 v2 a1 a2 Hv E1 E2.
    rewrite (valueToAngle_finite _ _ _ Hlt) in E1.
    rewrite (valueToAngle_finite _ _ _ Hlt) in E2.
    injection E1 as <-. injection E2 as <-.
    apply clamp_angle_mono, ratio_mono; assumption.
Qed.

Lemma valueToAngle_clamped_map_witness :
  0 < 1 /\
  valueToAngle (Num 0) (Num 1) (Num 2) = Num (PI / 2).
Proof.
  split; [lra |].
  destruct (valueToAngle_clamped_map 0 1 ltac:(lra)) as (_ & _ & _ & Hhi & _).
  apply Hhi. lra.
Defined.

(** C4 (as the spec states it, refuted): with [min = max = 0],
    [valueToAngle 0] is NaN, since [(0 - 0) / (0 - 0)] is [0 / 0]. *)
Lemma valueToAngle_degenerate_nan :
  valueToAngle (Num 0) (Num 0) (Num 0) = NaN.
Proof.
  unfold valueToAngle, js_gt. rewrite theta_eq.
  cbn [js_sub js_div].
  destruct (Req_EM_T (0 - 0) 0) as [_|H]; [| lra].
  unfold inf_times.
  destruct (Rlt_dec 0 (0 - 0)); [lra |].
  destruct (Rlt_dec (0 - 0) 0); [lra |].
  reflexivity.
Qed.

(** C4 (amended): [valueToAngle] has no special case for [max = min]; it
    divides by [max - min = 0], which yields [PI/2] for [v > min],
    [-PI/2] for [v < min] and NaN for [v = min]. *)
Theorem valueToAngle_degenerate (m v : R) :
  valueToAngle (Num m) (Num m) (Num v) =
  if Rlt_dec m v then Num (PI / 2)
  else if Rlt_dec v m then Num (- (PI / 2))
  else NaN.
Proof.
  pose proof PI_RGT_0 as Hpi. pose proof PI2_pos.
  unfold valueToAngle, js_gt. rewrite theta_eq.
  cbn [js_sub js_div].
  destruct (Req_EM_T (m - m) 0) as [_|Hne]; [| lra].
  unfold Math_PI, inf_times.
  destruct (Rlt_dec 0 (v - m)); [| destruct (Rlt_dec (v - m) 0)].
  - destruct (Rlt_dec m v); [| lra].
    cbn [js_mul]. unfold inf_times. destruct (Rlt_dec 0 PI); [| lra]. reflexivity.
  - destruct (Rlt_dec m v); [lra |]. destruct (Rlt_dec v m); [| lra].
    cbn [js_mul]. unfold inf_times. destruct (Rlt_dec 0 PI); [| lra]. reflexivity.
  - destruct (Rlt_dec m v); [lra |]. destruct (Rlt_dec v m); [lra |].
    reflexivity.
Qed.

(** ** Font sizes *)

(** C8 (as the spec states it, refuted): with an angular gauge and a big
    number the delta font is 0.35 times the number font, not 0.5. *)
Lemma delta_font_angular_not_half :
  let m := {| hasBigNumber := true; hasDelta := true; hasGauge := true; shape := Angular |} in
  let e := {| size_w := 1000; size_h := 400; digits := 3;
              cn_innerRadius := 0.75; cn_bulletHeight := 35 |} in
  snd (font_sizes m e) <> 0.5 * fst (font_sizes m e).
Proof.
  cbv zeta. unfold font_sizes, isAngular, innerRadius, radius; simpl.
  unfold Rmin. destruct (Rle_dec (0.85 * 1000 / 2) (400 * 0.65 - 20)); lra.
Qed.

(** C8 (amended): the delta font size is a fixed multiple of the number
    font size: without a gauge 0.5 when a big number is shown and 1
    otherwise; with an angular gauge 0.35, with a bullet gauge 0.5, and
    0.75 for either gauge when no big number is shown. *)
Theorem delta_font_ratio (m : mode_flags) (e : layout_env) :
  let '(big, dlt) := font_sizes m e in
  dlt = (if negb (hasGauge m) then (if hasBigNumber m then 0.5 else 1)
         else if negb (hasBigNumber m) then 0.75
         else match shape m with Angular => 0.35 | Bullet => 0.5 end) * big.
Proof.
  unfold font_sizes, isAngular.
  destruct m as [hb hd hg sh]; cbn [hasBigNumber hasGauge shape negb andb].
  destruct hg, hb, sh; cbn; lra.
Qed.

(** ** Fit-to-box *)

(** C5: for a measured box of positive width and height, the applied
    scale is [min(maxWidth/boxWidth, maxHeight/boxHeight)] capped at 1,
    hence at most 1; a block whose box equals the allotted region gets
    no [scale(...)] at all, i.e. scale exactly 1. *)
Theorem fit_to_box_scale (maxW maxH bbw bbh : R) :
  0 < bbw -> 0 < bbh ->
  applied_scale maxW maxH bbw bbh = Rmin (Rmin (maxW / bbw) (maxH / bbh)) 1 /\
  applied_scale maxW maxH bbw bbh <= 1 /\
  (maxW = bbw -> maxH = bbh ->
     scale_part (fitTextInside maxW maxH bbw bbh) = None /\
     applied_scale maxW maxH bbw bbh = 1).
Proof.
  intros Hw Hh. unfold applied_scale, scale_part, fitTextInside.
  assert (Hone : maxW = bbw -> maxH = bbh -> Rmin (maxW / bbw) (maxH / bbh) = 1).
  { intros -> ->. unfold Rdiv. rewrite !Rinv_r by lra. apply Rmin_left; lra. }
  destruct (Rlt_dec (Rmin (maxW / bbw) (maxH / bbh)) 1) as [Hl|Hl].
  - split; [| split].
    + rewrite (Rmin_left (Rmin _ _) 1); lra.
    + lra.
    + intros E1 E2. rewrite (Hone E1 E2) in Hl. lra.
  - split; [| split].
    + rewrite (Rmin_right (Rmin _ _) 1); lra.
    + lra.
    + intros _ _. split; reflexivity.
Qed.

Lemma fit_to_box_scale_witness :
  (0 < 100 /\ 0 < 50) /\ applied_scale 100 50 100 50 = 1.
Proof.
  split; [lra |].
  destruct (fit_to_box_scale 100 50 100 50 ltac:(lra) ltac:(lra)) as (_ & _ & Hex).
  apply Hex; reflexivity.
Defined.

(** ** Data join *)

Definition not_cls (cls : string) (n : node) : Prop := fst n <> cls.

Lemma join_go_absent (cls : string) (ds : list elem) (ch : list node) :
  Forall (not_cls cls) ch -> join_go cls ds ch = (ch, ds).
Proof.
  induction 1 as [| [c e] ch Hc Hall IH]; [reflexivity |].
  cbn [join_go]. unfold not_cls in Hc; cbn [fst] in Hc.
  apply String.eqb_neq in Hc. rewrite Hc, IH. reflexivity.
Qed.

Lemma join_absent (cls : string) (ds : list elem) (ch : list node) :
  Forall (not_cls cls) ch -> join cls ds ch = ch ++ map (pair cls) ds.
Proof. intros H. unfold join. rewrite (join_go_absent _ _ _ H). reflexivity. Qed.

(** Re-joining as many data as there are [cls] children updates them in
    place. *)
Lemma join_go_replace (cls : string) (pre : list node) (old ds : list elem)
      (rest : list node) :
  Forall (not_cls cls) pre -> Forall (not_cls cls) rest ->
  List.length old = List.length ds ->
  join_go cls ds (pre ++ map (pair cls) old ++ rest) =
  (pre ++ map (pair cls) ds ++ rest, []).
Proof.
  intros Hpre Hrest. induction Hpre as [| [c e] pre Hc Hall IH].
  - cbn [app]. revert ds. induction old as [| o old IHo]; intros [| d ds] Hlen;
      try discriminate; cbn [app map].
    + rewrite (join_go_absent _ _ _ Hrest). reflexivity.
    + cbn [join_go]. rewrite String.eqb_refl.
      injection Hlen as Hlen. rewrite (IHo ds Hlen). reflexivity.
  - intros Hlen. cbn [app join_go]. unfold not_cls in Hc; cbn [fst] in Hc.
    apply String.eqb_neq in Hc. rewrite Hc, (IH Hlen). reflexivity.
Qed.

Lemma join_replace (cls : string) (pre : list node) (old ds : list elem)
      (rest : list node) :
  Forall (not_cls cls) pre -> Forall (not_cls cls) rest ->
  List.length old = List.length ds ->
  join cls ds (pre ++ map (pair cls) old ++ rest) = pre ++ map (pair cls) ds ++ rest.
Proof.
  intros H1 H2 H3. unfold join. rewrite (join_go_replace _ _ _ _ _ H1 H2 H3).
  rewrite app_nil_r. reflexivity.
Qed.

(** Every child after a join either carries one of the joined data (and the
    joined class) or was already there with another class. *)
Lemma join_go_in (cls : string) (ds : list elem) (ch : list node) (n : node) :
  In n (fst (join_go cls ds ch)) \/ In (snd n) (snd (join_go cls ds ch)) /\ fst n = cls ->
  (fst n = cls /\ In (snd n) ds) \/ (fst n <> cls /\ In n ch).
Proof.
  revert ds. induction ch as [| [c e] ch IH]; intros ds Hin.
  - cbn in Hin. destruct Hin as [[] | [Hd Hc]]. left. auto.
  - cbn [join_go] in Hin. destruct (String.eqb c cls) eqn:Ec.
    + apply String.eqb_eq in Ec. subst c. destruct ds as [| d ds].
      * destruct (IH [] Hin) as [[_ []] | [Hne Hn]]. right. split; [auto | right; auto].
      * destruct (join_go cls ds ch) as [r rem] eqn:Ej. cbn [fst snd] in Hin.
        destruct Hin as [[<- | Hr] | Hrem].
        -- left. cbn. auto.
        -- assert (H' : In n (fst (join_go cls ds ch)) \/
                        In (snd n) (snd (join_go cls ds ch)) /\ fst n = cls)
             by (rewrite Ej; left; exact Hr).
           destruct (IH ds H') as [[Hc Hd] | [Hne Hn]].
           ++ left. split; [auto | right; auto].
           ++ right. split; [auto | right; auto].
        -- assert (H' : In n (fst (join_go cls ds ch)) \/
                        In (snd n) (snd (join_go cls ds ch)) /\ fst n = cls)
             by (rewrite Ej; right; exact Hrem).
           destruct (IH ds H') as [[Hc Hd] | [Hne Hn]].
           ++ left. split; [auto | right; auto].
           ++ right. split; [auto | right; auto].
    + destruct (join_go cls ds ch) as [r rem] eqn:Ej. cbn [fst snd] in Hin.
      apply String.eqb_neq in Ec.
      destruct Hin as [[<- | Hr] | Hrem].
      * right. cbn. split; [auto | left; auto].
      * assert (H' : In n (fst (join_go cls ds ch)) \/
                     In (snd n) (snd (join_go cls ds ch)) /\ fst n = cls)
          by (rewrite Ej; left; exact Hr).
        destruct (IH ds H') as [[Hc Hd] | [Hne Hn]]; [left; auto | right; split; [auto | right; auto]].
      * assert (H' : In n (fst (join_go cls ds ch)) \/
                     In (snd n) (snd (join_go cls ds ch)) /\ fst n = cls)
          by (rewrite Ej; right; exact Hrem).
        destruct (IH ds H') as [[Hc Hd] | [Hne Hn]]; [left; auto | right; split; [auto | right; auto]].
Qed.

Lemma join_in (cls : string) (ds : list elem) (ch : list node) (n : node) :
  In n (join cls ds ch) ->
  (fst n = cls /\ In (snd n) ds) \/ (fst n <> cls /\ In n ch).
Proof.
  intros Hin. apply join_go_in. unfold join in Hin.
  destruct (join_go cls ds ch) as [r rem]. cbn [fst snd].
  apply in_app_or in Hin. destruct Hin as [Hr | Hm]; [left; exact Hr |].
  right. apply in_map_iff in Hm. destruct Hm as [d [<- Hd]]. cbn. auto.
Qed.

Lemma Forall_not_cls_map (c c' : string) (l : list elem) :
  c' <> c -> Forall (not_cls c) (map (pair c') l).
Proof.
  intros Hne. apply Forall_forall. intros n Hn. apply in_map_iff in Hn.
  destruct Hn as [e [<- _]]. exact Hne.
Qed.

Ltac not_cls_tac :=
  repeat first
    [ apply Forall_not_cls_map; discriminate
    | apply Forall_nil
    | apply Forall_cons; [unfold not_cls; cbn [fst]; discriminate |]
    | apply Forall_app; split ].

Lemma join_fresh (cls : string) (ds : list elem) :
  join cls ds [] = map (pair cls) ds.
Proof. reflexivity. Qed.

Lemma draw_angular_fresh (steps : list step) (thr : jsval) :
  draw_angular steps thr [] =
  map (pair "targetArc"%string) (angular_arcs steps thr) ++
  [("fgArc"%string, EValue); ("gaugeOutline"%string, EOutline)].
Proof.
  unfold draw_angular. rewrite join_fresh.
  rewrite (join_absent "fgArc"%string) by not_cls_tac.
  rewrite join_absent by not_cls_tac.
  rewrite <- app_assoc. reflexivity.
Qed.

Lemma draw_angular_again (steps : list step) (thr : jsval) (old : list elem) (x y : elem) :
  List.length old = List.length (angular_arcs steps thr) ->
  draw_angular steps thr
    (map (pair "targetArc"%string) old ++ [("fgArc"%string, x); ("gaugeOutline"%string, y)]) =
  draw_angular steps thr [].
Proof.
  intros Hlen. rewrite draw_angular_fresh. unfold draw_angular.
  rewrite <- (app_nil_l (map (pair "targetArc"%string) old ++ _)).
  rewrite join_replace by (not_cls_tac || exact Hlen).
  rewrite app_nil_l.
  change [("fgArc"%string, x); ("gaugeOutline"%string, y)] with
         ([] ++ map (pair "fgArc"%string) [x] ++ [("gaugeOutline"%string, y)]).
  rewrite app_nil_l.
  rewrite join_replace by (not_cls_tac || reflexivity).
  change (map (pair "fgArc"%string) [EValue] ++ [("gaugeOutline"%string, y)]) with
         ([("fgArc"%string, EValue)] ++ map (pair "gaugeOutline"%string) [y] ++ []).
  rewrite app_assoc.
  rewrite join_replace by (not_cls_tac || reflexivity).
  rewrite <- app_assoc. reflexivity.
Qed.

Lemma draw_bullet_fresh (steps : list step) (thr : jsval) :
  draw_bullet steps thr [] =
  map (pair "targetBullet"%string) ([EBg] ++ map EStep steps) ++
  [("fgBullet"%string, EValue)] ++
  map (pair "threshold"%string) (bullet_threshold_data thr) ++
  [("bulletOutline"%string, EOutline)].
Proof.
  unfold draw_bullet. rewrite join_fresh.
  rewrite (join_absent "fgBullet"%string) by not_cls_tac.
  rewrite (join_absent "threshold"%string) by not_cls_tac.
  rewrite join_absent by not_cls_tac.
  rewrite <- !app_assoc. reflexivity.
Qed.

Lemma draw_bullet_again (steps : list step) (thr : jsval) (old1 old2 : list elem) (x y : elem) :
  List.length old1 = List.length ([EBg] ++ map EStep steps) ->
  List.length old2 = List.length (bullet_threshold_data thr) ->
  draw_bullet steps thr
    (map (pair "targetBullet"%string) old1 ++ [("fgBullet"%string, x)] ++
     map (pair "threshold"%string) old2 ++ [("bulletOutline"%string, y)]) =
  draw_bullet steps thr [].
Proof.
  intros H1 H2. rewrite draw_bullet_fresh. unfold draw_bullet.
  set (ds1 := [EBg] ++ map EStep steps).
  set (ds2 := bullet_threshold_data thr).
  rewrite <- (app_nil_l (map (pair "targetBullet"%string) old1 ++ _)).
  rewrite join_replace by (not_cls_tac || exact H1).
  rewrite app_nil_l.
  change ([("fgBullet"%string, x)] ++ map (pair "threshold"%string) old2 ++
          [("bulletOutline"%string, y)])
    with (map (pair "fgBullet"%string) [x] ++
          (map (pair "threshold"%string) old2 ++ [("bulletOutline"%string, y)])).
  rewrite join_replace by (not_cls_tac || reflexivity).
  change (map (pair "fgBullet"%string) [EValue]) with [("fgBullet"%string, EValue)].
  rewrite app_assoc.
  rewrite join_replace by (not_cls_tac || exact H2).
  change [("bulletOutline"%string, y)]
    with (map (pair "bulletOutline"%string) [y] ++ []).
  rewrite app_assoc.
  rewrite join_replace by (not_cls_tac || reflexivity).
  rewrite app_nil_r, <- !app_assoc. reflexivity.
Qed.

Lemma zorder_app (l1 l2 : list node) : zorder (l1 ++ l2) = zorder l1 ++ zorder l2.
Proof. apply map_app. Qed.

Lemma zorder_map_pair (c : string) (l : list elem) : zorder (map (pair c) l) = l.
Proof. induction l as [| e l IH]; [reflexivity |]. cbn. f_equal. exact IH. Qed.

(** ** Gauge z-order *)

Lemma angular_history_app (hs : list (list step * jsval)) (h : list step * jsval)
    (g : list node) :
  angular_history (hs ++ [h]) g = draw_angular (fst h) (snd h) (angular_history hs g).
Proof.
  revert g. induction hs as [| [st th] hs IH]; intros g; [destruct h; reflexivity |].
  cbn [app angular_history]. apply IH.
Qed.

Lemma bullet_history_app (hs : list (list step * jsval)) (h : list step * jsval)
    (g : list node) :
  bullet_history (hs ++ [h]) g = draw_bullet (fst h) (snd h) (bullet_history hs g).
Proof.
  revert g. induction hs as [| [st th] hs IH]; intros g; [destruct h; reflexivity |].
  cbn [app bullet_history]. apply IH.
Qed.

Lemma angular_redraw (st st' : list step) (th th' : jsval) :
  List.length st = List.length st' -> js_truthy th = js_truthy th' ->
  draw_angular st' th' (draw_angular st th []) = draw_angular st' th' [].
Proof.
  intros Hl Ht. rewrite draw_angular_fresh. apply draw_angular_again.
  unfold angular_arcs. rewrite !length_app, !length_map, Hl, Ht. reflexivity.
Qed.

Lemma bullet_redraw (st st' : list step) (th th' : jsval) :
  List.length st = List.length st' -> js_truthy th = js_truthy th' ->
  draw_bullet st' th' (draw_bullet st th []) = draw_bullet st' th' [].
Proof.
  intros Hl Ht. rewrite draw_bullet_fresh. apply draw_bullet_again.
  - rewrite !length_app, !length_map, Hl. reflexivity.
  - unfold bullet_threshold_data. rewrite Ht. reflexivity.
Qed.

Lemma angular_history_stable (steps : list step) (thr : jsval) (hs : list (list step * jsval)) :
  Forall (same_shape steps thr) hs ->
  angular_history hs [] = [] \/
  exists st th, same_shape steps thr (st, th) /\ angular_history hs [] = draw_angular st th [].
Proof.
  induction hs as [| h hs IH] using rev_ind; intros Hf; [left; reflexivity |].
  apply Forall_app in Hf. destruct Hf as [Hf Hh]. inversion Hh as [| ? ? Hsh _]. subst.
  right. exists (fst h), (snd h). split; [destruct h; exact Hsh |].
  rewrite angular_history_app. destruct (IH Hf) as [-> | (st & th & [Hl Ht] & ->)];
    [reflexivity |].
  cbn [fst] in Hl; cbn [snd] in Ht. destruct Hsh as [Hl' Ht']. apply angular_redraw; congruence.
Qed.

Lemma bullet_history_stable (steps : list step) (thr : jsval) (hs : list (list step * jsval)) :
  Forall (same_shape steps thr) hs ->
  bullet_history hs [] = [] \/
  exists st th, same_shape steps thr (st, th) /\ bullet_history hs [] = draw_bullet st th [].
Proof.
  induction hs as [| h hs IH] using rev_ind; intros Hf; [left; reflexivity |].
  apply Forall_app in Hf. destruct Hf as [Hf Hh]. inversion Hh as [| ? ? Hsh _]. subst.
  right. exists (fst h), (snd h). split; [destruct h; exact Hsh |].
  rewrite bullet_history_app. destruct (IH Hf) as [-> | (st & th & [Hl Ht] & ->)];
    [reflexivity |].
  cbn [fst] in Hl; cbn [snd] in Ht. destruct Hsh as [Hl' Ht']. apply bullet_redraw; congruence.
Qed.

(** After any sequence of renders that all keep the number of steps and
    the truthiness of the threshold value of the latest one (in
    particular on a first render), the angular gauge is drawn background,
    steps in declaration order, threshold (when its value is truthy),
    value arc, outline, while the bullet gauge is drawn background, steps
    in declaration order, value bar, threshold (when truthy), outline. *)
Theorem gauge_zorder_stable (steps : list step) (thr : jsval) (hs : list (list step * jsval)) :
  Forall (same_shape steps thr) hs ->
  zorder (angular_history (hs ++ [(steps, thr)]) []) = spec_zorder steps (js_truthy thr) /\
  zorder (bullet_history (hs ++ [(steps, thr)]) []) = bullet_zorder steps (js_truthy thr).
Proof.
  intros Hf. rewrite angular_history_app, bullet_history_app. cbn [fst snd].
  assert (Ha : zorder (draw_angular steps thr []) = spec_zorder steps (js_truthy thr)).
  { rewrite draw_angular_fresh, zorder_app, zorder_map_pair.
    unfold angular_arcs, spec_zorder. rewrite <- !app_assoc.
    destruct (js_truthy thr); reflexivity. }
  assert (Hb : zorder (draw_bullet steps thr []) = bullet_zorder steps (js_truthy thr)).
  { rewrite draw_bullet_fresh, !zorder_app, !zorder_map_pair.
    unfold bullet_threshold_data, bullet_zorder. rewrite <- !app_assoc.
    destruct (js_truthy thr); reflexivity. }
  split.
  - destruct (angular_history_stable steps thr hs Hf) as [-> | (st & th & [Hl Ht] & ->)];
      [exact Ha |].
    rewrite angular_redraw; [exact Ha | exact Hl | exact Ht].
  - destruct (bullet_history_stable steps thr hs Hf) as [-> | (st & th & [Hl Ht] & ->)];
      [exact Hb |].
    rewrite bullet_redraw; [exact Hb | exact Hl | exact Ht].
Qed.


Lemma gauge_zorder_stable_witness :
  Forall (same_shape [step0] (JNumber (Num 1))) [([step0], JNumber (Num 1))] /\
  zorder (angular_history [([step0], JNumber (Num 1)); ([step0], JNumber (Num 1))] []) =
    spec_zorder [step0] (js_truthy (JNumber (Num 1))) /\
  zorder (bullet_history [([step0], JNumber (Num 1)); ([step0], JNumber (Num 1))] []) =
    bullet_zorder [step0] (js_truthy (JNumber (Num 1))).
Proof.
  assert (Hf : Forall (same_shape [step0] (JNumber (Num 1))) [([step0], JNumber (Num 1))]).
  { constructor; [split; reflexivity | constructor]. }
  split; [exact Hf |].
  exact (gauge_zorder_stable [step0] (JNumber (Num 1)) [([step0], JNumber (Num 1))] Hf).
Defined.


(** ** Threshold visibility *)

Lemma js_truthy_false_iff (v : jsval) :
  js_truthy v = false <-> v = JUndef \/ v = JNumber (Num 0) \/ v = JNumber NaN.
Proof.
  split.
  - destruct v as [| [r | | |]]; cbn; intros H; try discriminate; auto.
    destruct (Req_EM_T r 0) as [->|_]; [auto | discriminate].
  - intros [-> | [-> | ->]]; cbn; try reflexivity.
    destruct (Req_EM_T 0 0); [reflexivity | lra].
Qed.

Lemma threshold_not_in_steps (steps : list step) :
  ~ In EThreshold ([EBg] ++ map EStep steps).
Proof.
  intros H. apply in_app_or in H. destruct H as [[H | []] | H]; [discriminate |].
  apply in_map_iff in H. destruct H as [s [Hs _]]. discriminate.
Qed.

(** C10: a threshold whose value is falsy (exactly [undefined], [0] or
    NaN) is never drawn: the angular arc list has no threshold arc, the
    bullet threshold data set is empty, and after the render neither gauge
    group holds a threshold element, whatever it held before. *)
Theorem threshold_falsy_not_drawn (thr : jsval) (steps : list step) (ga gb : list node)
  (Hf : js_truthy thr = false)
  (Hga : Forall (fun n => In (fst n) angular_classes) ga)
  (Hgb : Forall (fun n => In (fst n) bullet_classes) gb) :
  (thr = JUndef \/ thr = JNumber (Num 0) \/ thr = JNumber NaN) /\
  ~ In EThreshold (angular_arcs steps thr) /\
  bullet_threshold_data thr = [] /\
  ~ In EThreshold (zorder (draw_angular steps thr ga)) /\
  ~ In EThreshold (zorder (draw_bullet steps thr gb)).
Proof.
  assert (Harcs : ~ In EThreshold (angular_arcs steps thr)).
  { unfold angular_arcs. rewrite Hf, app_nil_r. apply threshold_not_in_steps. }
  assert (Hbd : bullet_threshold_data thr = []).
  { unfold bullet_threshold_data. rewrite Hf. reflexivity. }
  split; [apply js_truthy_false_iff; exact Hf |].
  split; [exact Harcs |]. split; [exact Hbd |]. split.
  - intros H. apply in_map_iff in H. destruct H as [n [Hn Hin]].
    unfold draw_angular in Hin.
    apply join_in in Hin. destruct Hin as [[_ Hd] | [Hne1 Hin]].
    { rewrite Hn in Hd. destruct Hd as [Hd | []]. discriminate. }
    apply join_in in Hin. destruct Hin as [[_ Hd] | [Hne2 Hin]].
    { rewrite Hn in Hd. destruct Hd as [Hd | []]. discriminate. }
    apply join_in in Hin. destruct Hin as [[_ Hd] | [Hne3 Hin]].
    { rewrite Hn in Hd. exact (Harcs Hd). }
    rewrite Forall_forall in Hga. specialize (Hga n Hin).
    destruct Hga as [E | [E | [E | []]]]; auto.
  - intros H. apply in_map_iff in H. destruct H as [n [Hn Hin]].
    unfold draw_bullet in Hin. rewrite Hbd in Hin.
    apply join_in in Hin. destruct Hin as [[_ Hd] | [Hne1 Hin]].
    { rewrite Hn in Hd. destruct Hd as [Hd | []]. discriminate. }
    apply join_in in Hin. destruct Hin as [[_ Hd] | [Hne2 Hin]].
    { destruct Hd. }
    apply join_in in Hin. destruct Hin as [[_ Hd] | [Hne3 Hin]].
    { rewrite Hn in Hd. destruct Hd as [Hd | []]. discriminate. }
    apply join_in in Hin. destruct Hin as [[_ Hd] | [Hne4 Hin]].
    { rewrite Hn in Hd. exact (threshold_not_in_steps steps Hd). }
    rewrite Forall_forall in Hgb. specialize (Hgb n Hin).
    destruct Hgb as [E | [E | [E | [E | []]]]]; auto.
Qed.

(** A threshold at value 0, inside [[min, max] = [-1, 1]], on gauges that
    drew it before (value 0.5). *)
Lemma threshold_falsy_not_drawn_witness :
  (js_truthy (JNumber (Num 0)) = false /\
   Forall (fun n => In (fst n) angular_classes)
     (draw_angular [step0] (JNumber (Num (1/2))) []) /\
   Forall (fun n => In (fst n) bullet_classes)
     (draw_bullet [step0] (JNumber (Num (1/2))) [])) /\
  ~ In EThreshold (zorder (draw_bullet [step0] (JNumber (Num 0))
                            (draw_bullet [step0] (JNumber (Num (1/2))) []))).
Proof.
  assert (H0 : js_truthy (JNumber (Num 0)) = false).
  { cbn. destruct (Req_EM_T 0 0); [reflexivity | lra]. }
  assert (Ha : Forall (fun n => In (fst n) angular_classes)
                 (draw_angular [step0] (JNumber (Num (1/2))) [])).
  { rewrite draw_angular_fresh. unfold angular_arcs.
    apply Forall_forall. intros n Hn.
    destruct (js_truthy (JNumber (Num (1/2)))); cbn in Hn;
      repeat destruct Hn as [<- | Hn]; cbn; tauto. }
  assert (Hb : Forall (fun n => In (fst n) bullet_classes)
                 (draw_bullet [step0] (JNumber (Num (1/2))) [])).
  { rewrite draw_bullet_fresh. unfold bullet_threshold_data.
    apply Forall_forall. intros n Hn.
    destruct (js_truthy (JNumber (Num (1/2)))); cbn in Hn;
      repeat destruct Hn as [<- | Hn]; cbn; tauto. }
  split; [split; [exact H0 | split; [exact Ha | exact Hb]] |].
  destruct (threshold_falsy_not_drawn (JNumber (Num 0)) [step0]
              (draw_angular [step0] (JNumber (Num (1/2))) [])
              (draw_bullet [step0] (JNumber (Num (1/2))) [])
              H0 Ha Hb) as (_ & _ & _ & _ & Hbul).
  exact Hbul.
Defined.

(** ** Transitions *)

Module TransitionFacts.
Import Transition.

Definition act_is (i : nat) (act : option tr) : bool :=
  match act with Some a => Nat.eqb (tr_id a) i | None => false end.

(** Completion bookkeeping on a log, the node's scheduled transitions, its
    active transition and the next d3 id. *)
Definition Inv (l : list obs) (q : list pend) (act : option tr) (n : nat) : Prop :=
  (forall i, completions i l =
              if started_cb i l && negb (act_is i act) then 1%nat else 0%nat) /\
  (forall a, act = Some a -> started_cb (tr_id a) l = tr_cb a) /\
  (forall p, In p q -> started_cb (p_id p) l = false /\ (p_id p < n)%nat) /\
  NoDup (map p_id q) /\
  (forall i, started_cb i l = true -> (i < n)%nat).

Lemma Inv_init : Inv [] [] None 0.
Proof.
  split; [| split; [| split; [| split]]]; cbn.
  - reflexivity.
  - discriminate.
  - contradiction.
  - constructor.
  - discriminate.
Qed.

Lemma Inv_complete (l : list obs) (q : list pend) (a : tr) (n : nat) :
  Inv l q (Some a) n ->
  Inv (if tr_cb a then OComplete (tr_id a) :: l else l) q None n.
Proof.
  intros (Hc & Ha & Hq & Hd & Hs). specialize (Ha a eq_refl) as Hsa.
  destruct (tr_cb a) eqn:Ecb.
  - split; [| split; [| split; [| split]]]; cbn [started_cb completions act_is].
    + intros i. specialize (Hc i). cbn [act_is] in Hc.
      destruct (Nat.eqb_spec (tr_id a) i) as [E | Hne]; [subst i |].
      * rewrite Hsa in Hc |- *. rewrite andb_false_r in Hc. rewrite Hc. reflexivity.
      * rewrite andb_true_r in Hc |- *. rewrite Hc. reflexivity.
    + discriminate.
    + exact Hq.
    + exact Hd.
    + exact Hs.
  - split; [| split; [| split; [| split]]]; cbn [act_is].
    + intros i. specialize (Hc i). cbn [act_is] in Hc.
      destruct (Nat.eqb_spec (tr_id a) i) as [E | Hne]; [subst i |].
      * rewrite Hsa in Hc |- *. exact Hc.
      * exact Hc.
    + discriminate.
    + exact Hq.
    + exact Hd.
    + exact Hs.
Qed.

Lemma Inv_start (l : list obs) (p : pend) (q : list pend) (n : nat) (f t : jsnum) :
  Inv l (p :: q) None n ->
  Inv (OStart (p_id p) f t (p_cb p) :: l) q
      (Some {| tr_id := p_id p; tr_from := f; tr_to := t; tr_cb := p_cb p |}) n.
Proof.
  intros (Hc & _ & Hq & Hd & Hs).
  destruct (Hq p (or_introl eq_refl)) as [Hn Hlt].
  inversion Hd as [| x xs Hnin Hd']. subst.
  split; [| split; [| split; [| split]]]; cbn [started_cb completions act_is tr_id tr_cb].
  - intros i. rewrite (Hc i). cbn [act_is].
    destruct (Nat.eqb_spec (p_id p) i) as [<- | Hne].
    + rewrite Hn, andb_false_r. cbn. reflexivity.
    + cbn [andb orb negb]. rewrite andb_true_r. reflexivity.
  - intros a Ha. injection Ha as <-. cbn. rewrite Nat.eqb_refl, Hn.
    destruct (p_cb p); reflexivity.
  - intros p' Hp'. destruct (Hq p' (or_intror Hp')) as [Hn' Hlt'].
    split; [| exact Hlt'].
    rewrite Hn'. rewrite orb_false_r.
    destruct (Nat.eqb_spec (p_id p) (p_id p')) as [E | _]; [| reflexivity].
    exfalso. apply Hnin. rewrite E. apply in_map. exact Hp'.
  - exact Hd'.
  - intros i Hid. apply orb_true_iff in Hid. destruct Hid as [Hid | Hid].
    + apply andb_true_iff in Hid. destruct Hid as [Hid _].
      apply Nat.eqb_eq in Hid. lia.
    + apply Hs in Hid. exact Hid.
Qed.

Lemma Inv_schedule (l : list obs) (q : list pend) (act : option tr) (n : nat)
    (ly y : jsnum) (cb : bool) :
  Inv l q act n ->
  Inv l (q ++ [{| p_id := n; p_lastY := ly; p_y := y; p_cb := cb |}]) act (S n).
Proof.
  intros (Hc & Ha & Hq & Hd & Hs).
  split; [exact Hc | split; [exact Ha | split; [| split]]].
  - intros p Hp. apply in_app_iff in Hp. destruct Hp as [Hp | [<- | []]].
    + destruct (Hq p Hp). split; [assumption | lia].
    + cbn. split; [| lia].
      destruct (started_cb n l) eqn:E; [| reflexivity]. apply Hs in E. lia.
  - rewrite map_app. apply NoDup_app; [exact Hd | constructor; [intros [] | constructor] |].
    intros x Hx [Hx' | []]. cbn in Hx'. subst x.
    apply in_map_iff in Hx. destruct Hx as [p [Ep Hp]].
    destruct (Hq p Hp) as [_ Hlt]. lia.
  - intros i Hi. apply Hs in Hi. lia.
Qed.

Lemma Inv_other (l : list obs) (q : list pend) (act : option tr) (n : nat) (o : obs) :
  (forall i f t cb, o <> OStart i f t cb) -> (forall i, o <> OComplete i) ->
  Inv l q act n -> Inv (o :: l) q act n.
Proof.
  intros Hns Hnc (Hc & Ha & Hq & Hd & Hs).
  destruct o;
    [exfalso; eapply Hns; reflexivity | exfalso; eapply Hnc; reflexivity | |];
    (split; [| split; [| split; [| split]]]; cbn [started_cb completions]; assumption).
Qed.

Lemma call_onComplete_log (a : tr) (s : tstate) :
  log (call_onComplete a s) = if tr_cb a then OComplete (tr_id a) :: log s else log s.
Proof. unfold call_onComplete. destruct (tr_cb a); reflexivity. Qed.

Lemma call_onComplete_next (a : tr) (s : tstate) :
  next_id (call_onComplete a s) = next_id s.
Proof. unfold call_onComplete. destruct (tr_cb a); reflexivity. Qed.

Lemma call_onComplete_pending (a : tr) (s : tstate) :
  pending (call_onComplete a s) = pending s.
Proof. unfold call_onComplete. destruct (tr_cb a); reflexivity. Qed.


Lemma call_onComplete_datum (a : tr) (s : tstate) :
  datum (call_onComplete a s) = datum s.
Proof. unfold call_onComplete. destruct (tr_cb a); reflexivity. Qed.

Ltac other_obs := first [ intros ? ? ? ? ?; discriminate | intros ? ?; discriminate ].

Definition SInv (s : tstate) : Prop := Inv (log s) (pending s) (active s) (next_id s).

Lemma Inv_step (g : group) (s : tstate) (e : event) : SInv s -> SInv (step g s e).
Proof.
  unfold SInv. intros H. destruct e as [ht cb ly y | | t |]; cbn [step].
  - destruct ht; cbn.
    + apply Inv_schedule, H.
    + apply Inv_other; [other_obs | other_obs | exact H].
  - destruct (pending s) as [| p rest] eqn:Ep; [rewrite Ep; exact H |].
    try rewrite Ep in H.
    destruct (active s) as [a |] eqn:Ea; cbn.
    + unfold on_interrupt.
      rewrite ?call_onComplete_log, ?call_onComplete_next, ?call_onComplete_pending.
      cbn [log next_id pending].
      apply (Inv_start _ _ _ _ _ _ (Inv_complete _ _ _ _ H)).
    + apply (Inv_start _ _ _ _ _ _ H).
  - destruct (active s) as [a |] eqn:Ea; cbn; rewrite ?Ea; [| exact H].
    apply Inv_other; [other_obs | other_obs | exact H].
  - destruct (active s) as [a |] eqn:Ea; cbn; rewrite ?Ea; [| exact H].
    assert (H' : Inv (OCommit (datum s) :: log s) (pending s) (Some a) (next_id s))
      by (apply Inv_other; [other_obs | other_obs | exact H]).
    destruct g; cbn; unfold call_onComplete;
      [ pose proof (Inv_complete _ _ _ _ H) as Hc
      | pose proof (Inv_complete _ _ _ _ H') as Hc
      | pose proof (Inv_complete _ _ _ _ H) as Hc
      | pose proof (Inv_complete _ _ _ _ H) as Hc ];
      destruct (tr_cb a); cbn; exact Hc.
Qed.

Lemma Inv_run (g : group) (evs : list event) (s : tstate) :
  SInv s -> SInv (run g s evs).
Proof.
  revert s. induction evs as [| e evs IH]; intros s H; [exact H |].
  cbn [run]. apply IH. apply (Inv_step g s e H).
Qed.

(** C3: in every run of any animated group, from the first render on,
    a transition created with a completion callback has invoked it exactly
    once as soon as it is no longer running (it ended naturally or a later
    transition interrupted it), not at all while it runs or waits for its
    first frame, and no transition ever invokes it twice. *)
Theorem completion_exactly_once (g : group) (evs : list event) (i : nat) :
  let s := run g init evs in
  completions i (log s) =
  if started_cb i (log s) && negb (is_active i s) then 1%nat else 0%nat.
Proof.
  cbv zeta. destruct (Inv_run g evs init Inv_init) as (Hc & _ & _).
  rewrite (Hc i). unfold is_active, act_is. reflexivity.
Qed.



















End TransitionFacts.

(** ** Synchronous render *)

Module RenderFacts.
Import Render.

(** C6: with no transition options, or a duration of 0 (or less), no
    completion callback is created and every animated group (number,
    delta, value arc, value bar) is set to its final value synchronously;
    no transition, hence no completion listener, is started. *)
Theorem no_transition_synchronous (c2p : R -> R) (transitionOpts : option R)
  (makeCb : bool) (mn mx lastY y dv dlast : R)
  (Hopts : transitionOpts = None \/ exists d, transitionOpts = Some d /\ d <= 0) :
  plot_groups c2p transitionOpts makeCb mn mx lastY y dv dlast =
  {| onComplete_created := false;
     number_act := SetNow (Num y);
     delta_act := SetNow (Num dv);
     arc_act := SetNow (valueToAngle (Num mn) (Num mx) (Num y));
     bullet_act := SetNow (Num (Rmax 0 (c2p (Rmin mx y)))) |}.
Proof.
  assert (Ht : hasTransition transitionOpts = false).
  { destruct Hopts as [-> | [d [-> Hd]]]; cbn; [reflexivity |].
    destruct (Rlt_dec 0 d); [lra | reflexivity]. }
  unfold plot_groups. rewrite Ht. reflexivity.
Qed.

(** The spec's example: last value 0, new value 100, duration 0. *)
Lemma no_transition_synchronous_witness :
  (Some 0 = None \/ exists d, Some 0 = Some d /\ d <= 0) /\
  number_act (plot_groups (fun x => x) (Some 0) true 0 200 0 100 100 0) = SetNow (Num 100) /\
  onComplete_created (plot_groups (fun x => x) (Some 0) true 0 200 0 100 100 0) = false.
Proof.
  assert (Hopts : Some 0 = None \/ exists d, Some 0 = Some d /\ d <= 0)
    by (right; exists 0; split; [reflexivity | lra]).
  split; [exact Hopts |].
  rewrite (no_transition_synchronous (fun x => x) (Some 0) true 0 200 0 100 100 0 Hopts).
  split; reflexivity.
Defined.

End RenderFacts.

(** ** Axis Adapter *)

Module HeapFacts.
Import Heap.

Lemma alloc_old (h : heap) (o : obj) (l : nat) :
  (l < next h)%nat -> mem (snd (alloc h o)) l = mem h l.
Proof.
  intros Hl. cbn. destruct (Nat.eqb_spec l (next h)); [lia | reflexivity].
Qed.

Lemma demo_defaults_frame : helper_frame demo_defaults.
Proof.
  intros h i o p lay l Hl Hi Ho Hp. unfold demo_defaults, write.
  destruct (mem h o); cbn; [| split; [reflexivity | lia]].
  destruct (Nat.eqb_spec l o); [contradiction | split; [reflexivity | lia]].
Qed.

(** C9: [mockAxis] writes no object that existed before the call (the
    caller's trace, [trace.gauge.axis] and every object reachable from
    them are such objects), and the descriptor it returns is a newly
    allocated object, on every call. *)
Theorem mockAxis_fresh_no_mutation (num_to_string : R -> string)
  (hAD hAPD : axis_helper) (HAD : helper_frame hAD) (HAPD : helper_frame hAPD)
  (h : heap) (layout opts : nat) (zrange : value) :
  let '(ax, h') := mockAxis num_to_string hAD hAPD h layout opts zrange in
  (forall l, (l < next h)%nat -> mem h' l = mem h l) /\
  (next h <= ax)%nat /\ ax = S (next h).
Proof.
  unfold mockAxis. cbn [alloc next mem].
  set (h3 := {| mem := _; next := S (S (S (next h))) |}).
  split; [| split; [lia | reflexivity]].
  intros l Hl.
  assert (Hl3 : (l < next h3)%nat) by (cbn; lia).
  destruct (HAD h3 (next h) (S (next h)) (S (S (next h))) layout l Hl3
              ltac:(lia) ltac:(lia) ltac:(lia)) as [E4 N4].
  destruct (HAPD (hAD h3 (next h) (S (next h)) (S (S (next h))) layout)
              (next h) (S (next h)) (S (S (next h))) layout l ltac:(lia)
              ltac:(lia) ltac:(lia) ltac:(lia)) as [E5 _].
  rewrite E5, E4. subst h3. cbn.
  destruct (Nat.eqb_spec l (S (S (next h)))); [lia |].
  destruct (Nat.eqb_spec l (S (next h))); [lia |].
  destruct (Nat.eqb_spec l (next h)); [lia | reflexivity].
Qed.

Lemma mockAxis_fresh_no_mutation_witness :
  (helper_frame demo_defaults /\ helper_frame demo_defaults) /\
  mem (snd (mockAxis (fun _ => "1"%string) demo_defaults demo_defaults
                      demo_heap 0 1 VUndef)) 1 = mem demo_heap 1.
Proof.
  split; [split; exact demo_defaults_frame |].
  pose proof (mockAxis_fresh_no_mutation (fun _ => "1"%string) demo_defaults demo_defaults
                demo_defaults_frame demo_defaults_frame demo_heap 0 1 VUndef) as H.
  destruct (mockAxis (fun _ => "1"%string) demo_defaults demo_defaults demo_heap 0 1 VUndef)
    as [ax h'] eqn:E.
  destruct H as [Hold _]. cbn [snd]. apply Hold. cbn. lia.
Defined.

End HeapFacts.

(** ** Layout, drawing and tween facts *)

Module PlotFacts.

(** *** Helpers *)

Lemma anchor_frac_position (a : align) : anchor_frac (anchor a) = position a.
Proof. destruct a; reflexivity. Qed.

Lemma position_bounds (a : align) : 0 <= position a <= 1.
Proof. destruct a; cbn; lra. Qed.

Lemma applied_scale_min (W H bbw bbh : R) :
  applied_scale W H bbw bbh = Rmin (Rmin (W / bbw) (H / bbh)) 1.
Proof.
  unfold applied_scale, scale_part, fitTextInside.
  destruct (Rlt_dec (Rmin (W / bbw) (H / bbh)) 1) as [Hl|Hl].
  - rewrite (Rmin_left (Rmin _ _) 1); lra.
  - rewrite (Rmin_right (Rmin _ _) 1); lra.
Qed.

Lemma div_mul_le (W b : R) : 0 < b -> W / b * b = W.
Proof. intros Hb. field. lra. Qed.

(** The scaled box has a non-negative size within the allotted one. *)
Lemma scaled_fits (W H bbw bbh : R) :
  0 < bbw -> 0 < bbh -> 0 <= W -> 0 <= H ->
  let s := applied_scale W H bbw bbh in
  0 <= s /\ s <= 1 /\ s * bbw <= W /\ s * bbh <= H.
Proof.
  intros Hw Hh HW HH s. subst s. rewrite applied_scale_min.
  assert (E1 : W / bbw * bbw = W) by (apply div_mul_le; lra).
  assert (E2 : H / bbh * bbh = H) by (apply div_mul_le; lra).
  assert (P1 : 0 <= W / bbw) by (unfold Rdiv; apply Rmult_le_pos; [lra | left; apply Rinv_0_lt_compat; lra]).
  assert (P2 : 0 <= H / bbh) by (unfold Rdiv; apply Rmult_le_pos; [lra | left; apply Rinv_0_lt_compat; lra]).
  assert (M1 := Rmin_l (W / bbw) (H / bbh)).
  assert (M2 := Rmin_r (W / bbw) (H / bbh)).
  set (r := Rmin (W / bbw) (H / bbh)) in *.
  assert (Hr : 0 <= r) by (unfold r; apply Rmin_glb; lra).
  assert (A := Rmin_l r 1). assert (B := Rmin_r r 1).
  assert (C : 0 <= Rmin r 1) by (apply Rmin_glb; lra).
  set (s := Rmin r 1) in *.
  split; [lra | split; [lra | split]]; nra.
Qed.

Lemma count_cls_app (c : string) (l1 l2 : list node) :
  count_cls c (l1 ++ l2) = (count_cls c l1 + count_cls c l2)%nat.
Proof. unfold count_cls. rewrite filter_app, length_app. reflexivity. Qed.

Lemma count_cls_map_same (c : string) (l : list elem) :
  count_cls c (map (pair c) l) = List.length l.
Proof.
  induction l as [| x l IH]; [reflexivity |].
  unfold count_cls in *. cbn. rewrite String.eqb_refl. cbn. rewrite IH. reflexivity.
Qed.

Lemma count_cls_map_other (c c' : string) (l : list elem) :
  c' <> c -> count_cls c' (map (pair c) l) = 0%nat.
Proof.
  intros Hne. induction l as [| x l IH]; [reflexivity |].
  unfold count_cls in *. cbn.
  destruct (String.eqb c c') eqn:E; [apply String.eqb_eq in E; congruence |].
  exact IH.
Qed.

Lemma count_join_go_same (c : string) (ds : list elem) (ch : list node) :
  (count_cls c (fst (join_go c ds ch)) + List.length (snd (join_go c ds ch)))%nat =
  List.length ds.
Proof.
  revert ds. induction ch as [| [c0 e] ch IH]; intros ds; [reflexivity |].
  cbn [join_go]. destruct (String.eqb c0 c) eqn:E.
  - apply String.eqb_eq in E. subst c0. destruct ds as [| d ds].
    + apply IH.
    + specialize (IH ds). destruct (join_go c ds ch) as [r rem]. cbn [fst snd] in *.
      unfold count_cls in *. cbn [filter fst]. rewrite String.eqb_refl. cbn [List.length].
      lia.
  - specialize (IH ds). destruct (join_go c ds ch) as [r rem]. cbn [fst snd] in *.
    unfold count_cls in *. cbn [filter fst]. rewrite E. exact IH.
Qed.

Lemma count_join_same (c : string) (ds : list elem) (ch : list node) :
  count_cls c (join c ds ch) = List.length ds.
Proof.
  unfold join. pose proof (count_join_go_same c ds ch) as H.
  destruct (join_go c ds ch) as [r rem]. cbn [fst snd] in H.
  rewrite count_cls_app, count_cls_map_same. exact H.
Qed.

Lemma count_join_go_other (c c' : string) (ds : list elem) (ch : list node) :
  c' <> c -> count_cls c' (fst (join_go c ds ch)) = count_cls c' ch.
Proof.
  intros Hne. revert ds. induction ch as [| [c0 e] ch IH]; intros ds; [reflexivity |].
  cbn [join_go]. destruct (String.eqb c0 c) eqn:E.
  - apply String.eqb_eq in E. subst c0.
    assert (Hf : String.eqb c c' = false) by (apply String.eqb_neq; congruence).
    destruct ds as [| d ds].
    + rewrite IH. unfold count_cls. cbn [filter fst]. rewrite Hf. reflexivity.
    + specialize (IH ds). destruct (join_go c ds ch) as [r rem]. cbn [fst snd] in *.
      unfold count_cls in *. cbn [filter fst]. rewrite Hf. exact IH.
  - specialize (IH ds). destruct (join_go c ds ch) as [r rem]. cbn [fst snd] in *.
    unfold count_cls in *. cbn [filter fst].
    destruct (String.eqb c0 c'); cbn [List.length]; rewrite IH; reflexivity.
Qed.

Lemma count_join_other (c c' : string) (ds : list elem) (ch : list node) :
  c' <> c -> count_cls c' (join c ds ch) = count_cls c' ch.
Proof.
  intros Hne. unfold join. pose proof (count_join_go_other c c' ds ch Hne) as H.
  destruct (join_go c ds ch) as [r rem]. cbn [fst] in H.
  rewrite count_cls_app, (count_cls_map_other _ _ _ Hne), H. lia.
Qed.

Lemma count_cls_same_classes (c : string) (l1 l2 : list node) :
  map fst l1 = map fst l2 -> count_cls c l1 = count_cls c l2.
Proof.
  revert l2. induction l1 as [| [c1 e1] l1 IH]; intros [| [c2 e2] l2] E;
    try discriminate; [reflexivity |].
  injection E as <- E. unfold count_cls in *. cbn [filter fst].
  destruct (String.eqb c1 c); cbn [List.length]; rewrite (IH l2 E); reflexivity.
Qed.

Lemma join_keep_go_classes (c : string) (ds : list elem) (ch : list node) :
  map fst (fst (join_keep_go c ds ch)) = map fst ch.
Proof.
  revert ds. induction ch as [| [c0 e] ch IH]; intros ds; [reflexivity |].
  cbn [join_keep_go]. destruct (String.eqb c0 c).
  - destruct ds as [| d ds].
    + specialize (IH []). destruct (join_keep_go c [] ch) as [r rem].
      cbn in *. rewrite IH. reflexivity.
    + specialize (IH ds). destruct (join_keep_go c ds ch) as [r rem].
      cbn in *. rewrite IH. reflexivity.
  - specialize (IH ds). destruct (join_keep_go c ds ch) as [r rem].
    cbn in *. rewrite IH. reflexivity.
Qed.

Lemma join_keep_go_rem (c : string) (ds : list elem) (ch : list node) :
  List.length (snd (join_keep_go c ds ch)) = (List.length ds - count_cls c ch)%nat.
Proof.
  revert ds. induction ch as [| [c0 e] ch IH]; intros ds; [cbn; lia |].
  unfold count_cls. cbn [join_keep_go filter fst]. destruct (String.eqb c0 c) eqn:E.
  - destruct ds as [| d ds].
    + specialize (IH []). destruct (join_keep_go c [] ch) as [r rem].
      cbn [snd List.length] in *. rewrite IH. reflexivity.
    + specialize (IH ds). destruct (join_keep_go c ds ch) as [r rem].
      cbn [snd List.length] in *. rewrite IH. reflexivity.
  - specialize (IH ds). destruct (join_keep_go c ds ch) as [r rem].
    cbn [snd] in *. exact IH.
Qed.

Lemma count_join_keep_same (c : string) (ds : list elem) (ch : list node) :
  count_cls c (join_keep c ds ch) = (count_cls c ch + (List.length ds - count_cls c ch))%nat.
Proof.
  unfold join_keep. pose proof (join_keep_go_classes c ds ch) as H1.
  pose proof (join_keep_go_rem c ds ch) as H2.
  destruct (join_keep_go c ds ch) as [r rem]. cbn [fst snd] in H1, H2.
  rewrite count_cls_app, count_cls_map_same, H2, (count_cls_same_classes c r ch H1).
  reflexivity.
Qed.

Lemma count_join_keep_other (c c' : string) (ds : list elem) (ch : list node) :
  c' <> c -> count_cls c' (join_keep c ds ch) = count_cls c' ch.
Proof.
  intros Hne. unfold join_keep. pose proof (join_keep_go_classes c ds ch) as H1.
  destruct (join_keep_go c ds ch) as [r rem]. cbn [fst] in H1.
  rewrite count_cls_app, (count_cls_map_other _ _ _ Hne), (count_cls_same_classes c' r ch H1).
  lia.
Qed.

Ltac count_tac :=
  repeat first
    [ rewrite count_join_same
    | rewrite count_join_other by discriminate
    | rewrite count_join_keep_other by discriminate ].


(** *** Domain box *)

(** The box of a domain keeps the plot area's total extent: left margin,
    width and right margin still add up to the full ones (the same
    vertically); domains [[x0, x1]] and [[x1, x2]] get boxes that meet;
    and a domain inside [[0, 1]] gives a box inside the plot area. *)
Theorem domain_size_tiles (fs : plot_size) (x0 x1 y0 y1 : R) :
  let s := domain_size fs x0 x1 y0 y1 in
  sz_l s + sz_w s + sz_r s = sz_l fs + sz_w fs + sz_r fs /\
  sz_t s + sz_h s + sz_b s = sz_t fs + sz_h fs + sz_b fs /\
  (forall x2, sz_l s + sz_w s = sz_l (domain_size fs x1 x2 y0 y1)) /\
  (forall y2, sz_t (domain_size fs x0 x1 y1 y2) + sz_h (domain_size fs x0 x1 y1 y2) = sz_t s) /\
  (0 <= sz_w fs -> 0 <= x0 <= x1 -> x1 <= 1 ->
     sz_l fs <= sz_l s /\ 0 <= sz_w s /\ sz_l s + sz_w s <= sz_l fs + sz_w fs) /\
  (0 <= sz_h fs -> 0 <= y0 <= y1 -> y1 <= 1 ->
     sz_t fs <= sz_t s /\ 0 <= sz_h s /\ sz_t s + sz_h s <= sz_t fs + sz_h fs).
Proof.
  cbn. split; [ring | split; [ring | split; [intros; ring | split; [intros; ring |]]]].
  split; intros H1 [H2 H3] H4; (split; [nra | split; nra]).
Qed.

(** *** Placement of the numbers and the title *)

(** For every mode and alignment, with non-negative [size.w], [size.h]
    and [size.h * 0.65 - 20] (so that [radius] is non-negative),
    [cn.innerRadius] in [[0, 1]] and [bulletTitleSize - bulletPadding] in
    [[0, 1]], the numbers text, scaled by [fitTextInside] and placed at
    [numbersX] with its [text-anchor], lies in a fixed region: the
    domain's width without a gauge, the [[-0.85, 0.85] * innerRadius] span
    around the centre for the angular gauge, and the right-hand
    [[1 - bulletTitleSize + bulletPadding, 1]] part of the domain for the
    bullet gauge; each region lies within the domain. *)
Theorem numbers_text_within_region (m : mode_flags) (e : layout_env)
    (l bts pad bbw bbh : R) (a : align) :
  0 <= size_w e -> 0 <= size_h e -> 0 <= size_h e * 0.65 - 20 ->
  0 <= cn_innerRadius e <= 1 -> 0 <= bts - pad <= 1 ->
  0 < bbw -> 0 < bbh ->
  let '(x, mw, mh) := numbers_box m e l bts pad a in
  let ext := text_extent x (anchor a) (applied_scale mw mh bbw bbh * bbw) in
  let region :=
    if negb (hasGauge m) then (l, l + size_w e)
    else match shape m with
         | Angular => (l + size_w e / 2 - 0.85 * innerRadius e,
                       l + size_w e / 2 + 0.85 * innerRadius e)
         | Bullet => (l + (1 - bts + pad) * size_w e, l + size_w e)
         end in
  fst region <= fst ext /\ snd ext <= snd region /\
  l <= fst region /\ snd region <= l + size_w e.
Proof.
  intros Hw Hh Hr [Hc0 Hc1] [Hb0 Hb1] Hbw Hbh.
  assert (Hrad : 0 <= radius e /\ radius e <= 0.85 * size_w e / 2).
  { unfold radius. split; [apply Rmin_glb; lra | apply Rmin_l]. }
  assert (Hir : 0 <= innerRadius e <= radius e).
  { unfold innerRadius. split; nra. }
  pose proof (position_bounds a) as Hp.
  unfold numbers_box, text_extent. rewrite anchor_frac_position.
  destruct (hasGauge m); [destruct (shape m) |]; cbn [negb fst snd].
  - destruct (scaled_fits (2 * innerRadius e * 0.85) (innerRadius e * 0.85) bbw bbh)
      as (S0 & _ & S1 & _); try lra.
    set (sw := applied_scale _ _ bbw bbh * bbw) in *.
    split; [nra | split; [nra | split; lra]].
  - assert (Hmw : 0 <= (bts - pad) * size_w e) by nra.
    destruct (scaled_fits ((bts - pad) * size_w e) (size_h e) bbw bbh)
      as (S0 & _ & S1 & _); try lra.
    set (sw := applied_scale _ _ bbw bbh * bbw) in *.
    split; [nra | split; [nra | split; nra]].
  - destruct (scaled_fits (0.85 * size_w e) (size_h e) bbw bbh)
      as (S0 & _ & S1 & _); try lra.
    set (sw := applied_scale _ _ bbw bbh * bbw) in *.
    split; [nra | split; [nra | split; lra]].
Qed.

(** For every mode and alignment, the title text, scaled by
    [fitTextInside] and placed at [titleX] with its [text-anchor], lies
    within [[size.l, size.l + fitWidth]], where [fitWidth] is the domain
    width, or [(bulletTitleSize - bulletPadding) * size.w] for the bullet
    gauge; with a non-negative padding that title region ends before the
    bullet starts. *)
Theorem title_text_within_region (m : mode_flags) (e : layout_env)
    (l bts pad bbw bbh : R) (a : align) :
  0 <= size_w e -> 0 <= size_h e -> 0 <= bts - pad -> 0 < bbw -> 0 < bbh ->
  let '(x, fw) := title_box m e l bts pad a in
  let ext := text_extent x (anchor a) (applied_scale fw (size_h e) bbw bbh * bbw) in
  l <= fst ext /\ snd ext <= l + fw /\
  (isBullet m = true -> 0 <= pad -> l + fw <= bullet_x e l true bts).
Proof.
  intros Hw Hh Hb Hbw Hbh.
  pose proof (position_bounds a) as Hp.
  unfold title_box, text_extent, bullet_x, bulletLeft. rewrite anchor_frac_position.
  destruct (isBullet m); cbn [fst snd].
  - assert (Hmw : 0 <= (bts - pad) * size_w e) by nra.
    destruct (scaled_fits ((bts - pad) * size_w e) (size_h e) bbw bbh)
      as (S0 & _ & S1 & _); try lra.
    set (sw := applied_scale _ _ bbw bbh * bbw) in *.
    split; [nra | split; [nra | intros _ Hpad; nra]].
  - destruct (scaled_fits (size_w e) (size_h e) bbw bbh)
      as (S0 & _ & S1 & _); try lra.
    set (sw := applied_scale _ _ bbw bbh * bbw) in *.
    split; [nra | split; [nra | discriminate]].
Qed.

(** *** Fit-to-box *)

(** For a measured box of positive size and a non-negative allotted
    region, the scale [plot] applies is non-negative, the scaled box fits
    the region in both directions, and when the text is actually shrunk
    it touches the region in one of them. *)
Theorem fitted_text_inside (W H bbw bbh : R) :
  0 < bbw -> 0 < bbh -> 0 <= W -> 0 <= H ->
  let s := applied_scale W H bbw bbh in
  0 <= s /\ s * bbw <= W /\ s * bbh <= H /\ (s < 1 -> s * bbw = W \/ s * bbh = H).
Proof.
  intros Hw Hh HW HH s.
  destruct (scaled_fits W H bbw bbh Hw Hh HW HH) as (S0 & _ & S1 & S2).
  split; [exact S0 | split; [exact S1 | split; [exact S2 |]]].
  intros Hs. subst s. rewrite applied_scale_min in *.
  assert (Hle : Rmin (W / bbw) (H / bbh) <= 1).
  { destruct (Rle_dec (Rmin (W / bbw) (H / bbh)) 1) as [E|E]; [exact E |].
    rewrite (Rmin_right (Rmin _ _) 1) in Hs; lra. }
  rewrite (Rmin_left (Rmin _ _) 1) by exact Hle.
  unfold Rmin. destruct (Rle_dec (W / bbw) (H / bbh)).
  - left. apply div_mul_le. lra.
  - right. apply div_mul_le. lra.
Qed.

(** *** Angular gauge geometry *)

Lemma radius_bounds (e : layout_env) :
  radius e <= 0.85 * size_w e / 2 /\ radius e <= size_h e * 0.65 - 20.
Proof. unfold radius. split; [apply Rmin_l | apply Rmin_r]. Qed.

Lemma arc_outer_one (e : layout_env) : snd (arcPathGenerator e 1) = radius e.
Proof. cbn. field. Qed.

(** The band [arcPathGenerator(size)] draws is centred on the mid radius
    [(innerRadius + radius) / 2] and [size * (radius - innerRadius)] thick;
    [size = 1] gives exactly [[innerRadius, radius]]; for
    [0 <= cn.innerRadius <= 1], a non-negative radius and [0 <= size <= 1]
    the band lies within [[innerRadius, radius]]. *)
Theorem arc_band (e : layout_env) (size : R) :
  let ri := fst (arcPathGenerator e size) in
  let ro := snd (arcPathGenerator e size) in
  ro - ri = size * (radius e - innerRadius e) /\
  (ri + ro) / 2 = (innerRadius e + radius e) / 2 /\
  arcPathGenerator e 1 = (innerRadius e, radius e) /\
  (0 <= cn_innerRadius e <= 1 -> 0 <= radius e -> 0 <= size <= 1 ->
     innerRadius e <= ri /\ ri <= ro /\ ro <= radius e).
Proof.
  cbn. split; [field | split; [field | split]].
  - apply injective_projections; cbn; field.
  - intros [H0 H1] Hr Hs. unfold innerRadius in *.
    assert (0 <= radius e - cn_innerRadius e * radius e) by nra.
    split; [| split]; nra.
Qed.

(** Every angular tick is translated to a point at distance [radius] from
    [gaugePosition], the outer edge of the background arc
    [arcPathGenerator(1)]; when [radius] is non-negative, ticks at angles
    in [[0, PI]] lie on or above the gauge centre. *)
Theorem ticks_on_gauge_rim (e : layout_env) (l t rad : R) :
  let gp := gaugePosition e l t in
  let p := tick_point e gp rad in
  (fst p - fst gp) ^ 2 + (snd p - snd gp) ^ 2 = (snd (arcPathGenerator e 1)) ^ 2 /\
  (0 <= rad <= PI -> 0 <= radius e -> snd p <= snd gp).
Proof.
  cbn zeta. rewrite arc_outer_one. unfold tick_point. cbn [fst snd]. split.
  - pose proof (sin2_cos2 rad) as Hsc. unfold Rsqr in Hsc. nra.
  - intros [H0 H1] Hr. pose proof (sin_ge_0 rad H0 H1). nra.
Qed.

(** The background arc stays within the domain horizontally and never
    below it. In a wide domain it also stays below the top edge; in a
    narrow one its top is above [size.t] exactly when
    [size.h / 2 < 0.85 * size.w / 2], i.e. the gauge overflows the top of
    the domain. *)
Theorem gauge_bg_within_domain (e : layout_env) (l t : R) :
  0 <= size_w e -> 0 <= size_h e ->
  let '(x0, x1, y0, y1) := gauge_bg_extent e l t in
  l <= x0 /\ x1 <= l + size_w e /\ y1 <= t + size_h e /\
  (isWide e = true -> t <= y0) /\
  (isWide e = false -> (y0 < t <-> size_h e / 2 < 0.85 * size_w e / 2)).
Proof.
  intros Hw Hh. unfold gauge_bg_extent.
  destruct (gaugePosition e l t) as [gx gy] eqn:Eg.
  rewrite arc_outer_one. unfold gaugePosition in Eg.
  injection Eg as <- <-.
  destruct (radius_bounds e) as [R1 R2].
  unfold isWide. destruct (Rlt_dec (size_h e * 0.65 - 20) (size_w e / 2)) as [Hwd|Hwd].
  - split; [lra | split; [lra | split; [lra | split; [intros _; lra | discriminate]]]].
  - assert (Er : radius e = 0.85 * size_w e / 2).
    { unfold radius. apply Rmin_left. lra. }
    split; [lra | split; [lra | split; [lra | split; [discriminate | intros _; lra]]]].
Qed.

(** *** Tweens *)

Lemma interpolate_one (r : R) (b : jsnum) : interpolateNumber (Num r) b 1 = b.
Proof.
  unfold interpolateNumber. replace (1 - 1) with 0 by ring.
  destruct b as [x | | |]; cbn [js_mul js_add]; unfold inf_times.
  - f_equal. ring.
  - destruct (Rlt_dec 0 1); [reflexivity | lra].
  - destruct (Rlt_dec 0 1); [reflexivity | lra].
  - reflexivity.
Qed.

Lemma interpolate_zero (a : jsnum) (r : R) : interpolateNumber a (Num r) 0 = a.
Proof.
  unfold interpolateNumber. replace (1 - 0) with 1 by ring.
  destruct a as [x | | |]; cbn [js_mul js_add]; unfold inf_times.
  - f_equal. ring.
  - destruct (Rlt_dec 0 1); [reflexivity | lra].
  - destruct (Rlt_dec 0 1); [reflexivity | lra].
  - reflexivity.
Qed.

Lemma interpolate_num (a b t : R) :
  interpolateNumber (Num a) (Num b) t = Num (a * (1 - t) + b * t).
Proof. reflexivity. Qed.

Lemma clamp_angle_low (a : R) : a <= - (PI / 2) -> clamp_angle a = - (PI / 2).
Proof.
  intros H. unfold clamp_angle.
  destruct (Rlt_dec a (- (PI / 2))); [reflexivity |].
  pose proof PI2_pos. destruct (Rlt_dec (PI / 2) a); lra.
Qed.

Lemma clamp_angle_high (a : R) : PI / 2 <= a -> clamp_angle a = PI / 2.
Proof.
  intros H. pose proof PI2_pos. unfold clamp_angle.
  destruct (Rlt_dec a (- (PI / 2))); [lra |].
  destruct (Rlt_dec (PI / 2) a); [reflexivity | lra].
Qed.

(** For [min < max], every frame of the value arc's tween at an eased time
    [t] in [[0, 1]] draws the arc to an end angle in [[-PI/2, PI/2]];
    frame 0 draws it to the angle of [cd[0].lastY] and frame 1 to that of
    [cd[0].y], the end angle a render without transition sets. The tween
    is called with the eased time, which the elastic and back easings take
    above 1: then a transition from [lastY <= min] to [y >= max] draws the
    arc past [PI/2], beyond the half circle. *)
Theorem arc_tween_on_gauge {A : Type} (arc : jsnum -> A) (mn mx lastY y : R) :
  mn < mx ->
  let tw := arcTween arc (valueToAngle (Num mn) (Num mx) (Num lastY))
                         (valueToAngle (Num mn) (Num mx) (Num y)) in
  (forall t, 0 <= t <= 1 -> exists a, tw t = arc (Num a) /\ - (PI / 2) <= a <= PI / 2) /\
  tw 0 = arc (valueToAngle (Num mn) (Num mx) (Num lastY)) /\
  tw 1 = arc (valueToAngle (Num mn) (Num mx) (Num y)) /\
  (lastY <= mn -> mx <= y ->
     forall t, 1 < t -> exists a, tw t = arc (Num a) /\ PI / 2 < a).
Proof.
  intros Hlt tw. subst tw. unfold arcTween.
  rewrite !(valueToAngle_finite mn mx) by exact Hlt.
  set (u := (lastY - mn) / (mx - mn) * PI - PI / 2).
  set (v := (y - mn) / (mx - mn) * PI - PI / 2).
  pose proof (clamp_angle_bounds u) as Ha.
  pose proof (clamp_angle_bounds v) as Hb.
  split; [| split; [| split]].
  - intros t [Ht0 Ht1].
    exists (clamp_angle u * (1 - t) + clamp_angle v * t). rewrite interpolate_num.
    split; [reflexivity |]. split; nra.
  - rewrite interpolate_zero. reflexivity.
  - rewrite interpolate_one. reflexivity.
  - intros Hl Hy t Ht. pose proof PI_RGT_0 as Hpi.
    assert (Hd : 0 < / (mx - mn)) by (apply Rinv_0_lt_compat; lra).
    assert (Hdd : (mx - mn) * / (mx - mn) = 1) by (apply Rinv_r; lra).
    rewrite (clamp_angle_low u), (clamp_angle_high v).
    + exists (- (PI / 2) * (1 - t) + PI / 2 * t). rewrite interpolate_num.
      split; [reflexivity | nra].
    + subst v. unfold Rdiv.
      assert (1 <= (y - mn) * / (mx - mn)) by nra. nra.
    + subst u. unfold Rdiv.
      assert ((lastY - mn) * / (mx - mn) <= 0) by nra. nra.
Qed.

(** *** Texts *)

(** The last frame of the number tween shows the text a render without
    transition shows, from a finite start value and for any target;
    its first frame shows the start value [cd[0].lastY] when the target is
    finite. The same holds for the delta tween, whose first frame shows the
    stored [_deltaLastValue]. *)
Theorem tween_frames_match_static (fmt deltaFmt : jsnum -> string)
    (inc_symbol dec_symbol suffix : string) (lastY from : R)
    (y delta relativeDelta : jsnum) (showpercentage : bool) :
  number_frame fmt suffix (Num lastY) y 1 = number_static fmt suffix y /\
  delta_frame deltaFmt inc_symbol dec_symbol (Num from) showpercentage delta relativeDelta 1 =
    delta_static deltaFmt inc_symbol dec_symbol showpercentage delta relativeDelta /\
  (forall r, y = Num r ->
     number_frame fmt suffix (Num lastY) y 0 = number_static fmt suffix (Num lastY)) /\
  (forall r, deltaValue showpercentage delta relativeDelta = Num r ->
     delta_frame deltaFmt inc_symbol dec_symbol (Num from) showpercentage delta relativeDelta 0 =
       deltaFormatText deltaFmt inc_symbol dec_symbol (Num from)).
Proof.
  unfold number_frame, number_static, delta_frame, delta_static.
  split; [rewrite interpolate_one; reflexivity |].
  split; [rewrite interpolate_one; reflexivity |].
  split.
  - intros r ->. rewrite interpolate_zero. reflexivity.
  - intros r ->. rewrite interpolate_zero. reflexivity.
Qed.

(** Without [showpercentage], the delta text's symbol and its fill colour
    are taken from the same side for every non-zero delta, NaN included
    (decreasing); a zero delta shows ['-'] in the increasing colour. *)
Theorem delta_symbol_matches_fill (deltaFmt : jsnum -> string)
    (inc_symbol dec_symbol inc_color dec_color : string) (delta relativeDelta : jsnum) :
  let text := delta_static deltaFmt inc_symbol dec_symbol false delta relativeDelta in
  let fill := deltaFill inc_color dec_color delta in
  (js_is_zero delta = true -> text = "-"%string /\ fill = inc_color) /\
  (js_is_zero delta = false ->
     (text = (inc_symbol ++ deltaFmt delta)%string /\ fill = inc_color) \/
     (text = (dec_symbol ++ deltaFmt delta)%string /\ fill = dec_color)) /\
  (delta = NaN -> text = (dec_symbol ++ deltaFmt NaN)%string /\ fill = dec_color).
Proof.
  unfold delta_static, deltaValue, deltaFormatText, deltaFill.
  destruct delta as [r | | |]; cbn [js_is_zero js_gt js_lt js_ge].
  - destruct (Req_EM_T r 0) as [E|E].
    + subst r. destruct (Rle_dec 0 0); [| lra].
      split; [intros _; split; reflexivity | split; [discriminate | discriminate]].
    + split; [discriminate | split; [intros _ | discriminate]].
      destruct (Rlt_dec 0 r); destruct (Rle_dec 0 r); try lra.
      * left; split; reflexivity.
      * right; split; reflexivity.
  - split; [discriminate | split; [intros _; left; split; reflexivity | discriminate]].
  - split; [discriminate | split; [intros _; right; split; reflexivity | discriminate]].
  - split; [discriminate | split; [intros _; right; split; reflexivity | intros _; split; reflexivity]].
Qed.

(** *** Tspans *)

(** The numbers text has a [number] tspan exactly when the big number is
    shown and a [delta] tspan exactly when the delta is, never two of the
    same class; the 10px [dx] lands on one of them exactly when both are
    shown and the delta is placed left or right, and that is the second
    one: the number for [left], the delta for [right]. *)
Theorem numbers_tspans_layout (hasBig hasDelta : bool) (pos : delta_position) :
  let cls := numbers_tspans hasBig hasDelta pos in
  (In "number"%string cls <-> hasBig = true) /\
  (In "delta"%string cls <-> hasDelta = true) /\
  NoDup cls /\
  (forall i, (i < List.length cls)%nat ->
     (tspan_dx pos i = Some 10 <->
      i = 1%nat /\
      (hasBig && hasDelta && match pos with PLeft | PRight => true | _ => false end)
      = true)) /\
  (hasBig && hasDelta = true ->
     cls = match pos with
           | PLeft => ["delta"%string; "number"%string]
           | _ => ["number"%string; "delta"%string]
           end).
Proof.
  destruct hasBig, hasDelta, pos; cbn;
    (split; [intuition congruence |
     split; [intuition congruence |
     split; [repeat constructor; cbn; intuition congruence |
     split; [intros [| [| i]] Hi; cbn in Hi; try lia; cbn; intuition (try congruence; try lia) |
             intros; first [reflexivity | discriminate]]]]]).
Qed.

(** *** Bullet geometry *)

(** For an axis map that is non-decreasing and sends [min] to 0, the value
    bar's width is the map of [cd[0].y] clamped to [[min, max]]: it is
    never negative and never longer than the axis up to [max]. *)
Theorem bullet_bar_clamped (c2p : R -> R) (mn mx y : R) :
  (forall a b, a <= b -> c2p a <= c2p b) -> c2p mn = 0 -> mn <= mx ->
  bullet_bar_width c2p mx y = c2p (Rmax mn (Rmin mx y)) /\
  0 <= bullet_bar_width c2p mx y <= c2p mx.
Proof.
  intros Hmono H0 Hle. unfold bullet_bar_width.
  assert (Hm := Hmono mn mx Hle).
  assert (Hy : Rmin mx y <= mx) by apply Rmin_l.
  assert (Hcy := Hmono _ _ Hy).
  destruct (Rle_dec mn (Rmin mx y)) as [Hge|Hlt].
  - rewrite (Rmax_right mn) by exact Hge.
    assert (Hc := Hmono _ _ Hge).
    rewrite Rmax_right by lra. lra.
  - rewrite (Rmax_left mn) by lra.
    assert (Hc := Hmono (Rmin mx y) mn ltac:(lra)).
    rewrite Rmax_left by lra. lra.
Qed.

(** With the linear bullet axis map [k * (x - min)], the right edge
    [x + width] of a [targetBullet] or [bulletOutline] rect for the range
    [[r0, r1]] is [max(c2p(r0), c2p(r1) - k * min)]: the width is computed
    as [c2p(r1 - r0)], which subtracts [min] twice. For [k > 0] and a range
    at least [min] wide it ends at [c2p(r1)] exactly when [min = 0]; the
    background rect for [[min, max]] is [max(0, k * (max - 2 * min))] wide,
    not [c2p(max)]. *)
Theorem bullet_rect_right_edge (k mn r0 r1 mx : R) :
  let c2p := linear_c2p k mn in
  fst (bullet_rect c2p r0 r1) + snd (bullet_rect c2p r0 r1) =
    Rmax (c2p r0) (c2p r1 - k * mn) /\
  bullet_rect c2p mn mx = (0, Rmax 0 (k * (mx - 2 * mn))) /\
  (0 < k -> mn <= r1 - r0 ->
     (fst (bullet_rect c2p r0 r1) + snd (bullet_rect c2p r0 r1) = c2p r1 <-> mn = 0)).
Proof.
  cbn zeta. unfold bullet_rect, linear_c2p. cbn [fst snd]. split; [| split].
  - unfold Rmax.
    destruct (Rle_dec 0 (k * (r1 - r0 - mn))); destruct (Rle_dec (k * (r0 - mn)) (k * (r1 - mn) - k * mn));
      nra.
  - apply injective_projections; cbn [fst snd]; [ring |].
    f_equal. ring.
  - intros Hk Hr. rewrite Rmax_right by nra.
    split; intros H.
    + assert (k * mn = 0) by nra. nra.
    + subst mn. ring.
Qed.

(** The value bar and the threshold line are both vertically centred in
    the bullet, the line [threshold.height * bulletHeight] long and
    vertical; the line is placed at [c2p(threshold.value)] without clamping,
    so for a strictly increasing axis map with [c2p(max) >= 0] a threshold
    above [max] is drawn beyond the end of the value bar, whatever the
    value. *)
Theorem bullet_threshold_geometry (c2p : R -> R) (bh v th vh mx y : R) :
  (let '(x1, x2, y1, y2) := threshold_line c2p bh v th in
   x1 = x2 /\ (y1 + y2) / 2 = bh / 2 /\ y2 - y1 = th * bh) /\
  fst (bullet_bar_y bh vh) + snd (bullet_bar_y bh vh) / 2 = bh / 2 /\
  ((forall a b, a < b -> c2p a < c2p b) -> 0 <= c2p mx -> mx < v ->
     bullet_bar_width c2p mx y < fst (fst (fst (threshold_line c2p bh v th)))).
Proof.
  split; [cbn; split; [reflexivity | split; field] |].
  split; [cbn; field |].
  intros Hinc Hm Hv. unfold bullet_bar_width, threshold_line. cbn [fst].
  assert (Hlt := Hinc mx v Hv).
  assert (Hle : c2p (Rmin mx y) <= c2p mx).
  { destruct (Rle_dec mx y).
    - rewrite Rmin_left by lra. lra.
    - rewrite Rmin_right by lra. left. apply Hinc. lra. }
  unfold Rmax. destruct (Rle_dec 0 (c2p (Rmin mx y))); lra.
Qed.

(** *** Layers after a render *)

(** Whatever the trace group held before, a render leaves exactly one
    title; it adds a numbers text when there is none and never removes
    one, so it leaves [max 1 n] of them where [n] were there before; it
    leaves one gauge group and one angular axis layer exactly when the
    gauge is angular, and one bullet group and one bullet axis layer
    exactly when it is a bullet: switching mode or shape removes the
    stale layers. *)
Theorem plot_layers_counts (m : mode_flags) (ch : list node) :
  let out := plot_layers m ch in
  count_cls "title" out = 1%nat /\
  count_cls "numbers" out = Nat.max 1 (count_cls "numbers" ch) /\
  count_cls "gauge" out = (if isAngular m then 1 else 0)%nat /\
  count_cls "angularaxis" out = (if isAngular m then 1 else 0)%nat /\
  count_cls "bullet" out = (if isBullet m then 1 else 0)%nat /\
  count_cls "bulletaxis" out = (if isBullet m then 1 else 0)%nat.
Proof.
  cbn zeta. unfold plot_layers.
  split; [| split; [| split; [| split; [| split]]]]; count_tac;
    try (destruct (isAngular m); destruct (isBullet m); reflexivity).
  rewrite count_join_keep_same, (count_join_other "title" "numbers") by discriminate.
  cbn [List.length]. lia.
Qed.

(** Whatever a gauge held before, redrawing it leaves one background or
    step arc per entry of [[gaugeBg].concat(trace.gauge.steps)] plus one
    threshold arc exactly when the threshold is truthy, and one value arc
    and one outline; likewise for the bullet's rects, threshold line and
    outline. Steps removed from the trace are removed from the drawing. *)
Theorem gauge_children_counts (steps : list step) (thr : jsval) (ga gb : list node) :
  let a := draw_angular steps thr ga in
  let b := draw_bullet steps thr gb in
  count_cls "targetArc" a = S (List.length steps + (if js_truthy thr then 1 else 0)) /\
  count_cls "fgArc" a = 1%nat /\
  count_cls "gaugeOutline" a = 1%nat /\
  count_cls "targetBullet" b = S (List.length steps) /\
  count_cls "fgBullet" b = 1%nat /\
  count_cls "threshold" b = (if js_truthy thr then 1 else 0)%nat /\
  count_cls "bulletOutline" b = 1%nat.
Proof.
  cbn zeta. unfold draw_angular, draw_bullet, angular_arcs, bullet_threshold_data.
  split; [| split; [| split; [| split; [| split; [| split]]]]]; count_tac;
    cbn [List.length app]; rewrite ?length_app, ?length_map;
    destruct (js_truthy thr); cbn [List.length]; lia.
Qed.

(** *** Instances *)

Lemma fitted_text_inside_witness :
  (0 < 200 /\ 0 < 50 /\ 0 <= 100 /\ 0 <= 50) /\
  (let s := applied_scale 100 50 200 50 in
   0 <= s /\ s * 200 <= 100 /\ s * 50 <= 50 /\ (s < 1 -> s * 200 = 100 \/ s * 50 = 50)).
Proof.
  split; [lra |]. apply fitted_text_inside; lra.
Defined.

Lemma numbers_text_within_region_witness :
  let m := {| hasBigNumber := true; hasDelta := true; hasGauge := true; shape := Angular |} in
  let e := {| size_w := 600; size_h := 400; digits := 3;
              cn_innerRadius := 0.75; cn_bulletHeight := 25 |} in
  (0 <= size_w e /\ 0 <= size_h e /\ 0 <= size_h e * 0.65 - 20 /\
   0 <= cn_innerRadius e <= 1 /\ 0 <= 0.25 - 0.025 <= 1 /\ 0 < 300 /\ 0 < 80) /\
  (let '(x, mw, mh) := numbers_box m e 10 0.25 0.025 ACenter in
   let ext := text_extent x (anchor ACenter) (applied_scale mw mh 300 80 * 300) in
   let region :=
     if negb (hasGauge m) then (10, 10 + size_w e)
     else match shape m with
          | Angular => (10 + size_w e / 2 - 0.85 * innerRadius e,
                        10 + size_w e / 2 + 0.85 * innerRadius e)
          | Bullet => (10 + (1 - 0.25 + 0.025) * size_w e, 10 + size_w e)
          end in
   fst region <= fst ext /\ snd ext <= snd region /\
   10 <= fst region /\ snd region <= 10 + size_w e).
Proof.
  intros m e. split; [cbn; lra |].
  apply (numbers_text_within_region m e 10 0.25 0.025 300 80 ACenter); cbn; lra.
Defined.

Lemma title_text_within_region_witness :
  let m := {| hasBigNumber := true; hasDelta := false; hasGauge := true; shape := Bullet |} in
  let e := {| size_w := 600; size_h := 100; digits := 3;
              cn_innerRadius := 0.75; cn_bulletHeight := 25 |} in
  (0 <= size_w e /\ 0 <= size_h e /\ 0 <= 0.25 - 0.025 /\ 0 < 200 /\ 0 < 20) /\
  (let '(x, fw) := title_box m e 10 0.25 0.025 ARight in
   let ext := text_extent x (anchor ARight) (applied_scale fw (size_h e) 200 20 * 200) in
   10 <= fst ext /\ snd ext <= 10 + fw /\
   (isBullet m = true -> 0 <= 0.025 -> 10 + fw <= bullet_x e 10 true 0.25)).
Proof.
  intros m e. split; [cbn; lra |].
  apply (title_text_within_region m e 10 0.25 0.025 200 20 ARight); cbn; lra.
Defined.

(** A 1200 x 1000 domain is not wide, and its gauge rises above the top of
    the domain. *)
Lemma gauge_bg_within_domain_witness :
  let e := {| size_w := 1200; size_h := 1000; digits := 1;
              cn_innerRadius := 0.75; cn_bulletHeight := 25 |} in
  0 <= size_w e /\ 0 <= size_h e /\ isWide e = false /\
  snd (fst (gauge_bg_extent e 0 0)) < 0.
Proof.
  intros e.
  assert (Hw : isWide e = false).
  { unfold isWide. cbn. destruct (Rlt_dec _ _); [lra | reflexivity]. }
  split; [cbn; lra | split; [cbn; lra | split; [exact Hw |]]].
  pose proof (gauge_bg_within_domain e 0 0 ltac:(cbn; lra) ltac:(cbn; lra)) as H.
  destruct (gauge_bg_extent e 0 0) as [[[x0 x1] y0] y1].
  destruct H as (_ & _ & _ & _ & H5). cbn [fst snd].
  apply (proj2 (H5 Hw)). cbn. lra.
Defined.

Lemma arc_tween_on_gauge_witness :
  0 < 10 /\
  (let tw := arcTween (fun a : jsnum => a) (valueToAngle (Num 0) (Num 10) (Num (-1)))
                                          (valueToAngle (Num 0) (Num 10) (Num 12)) in
   (forall t, 0 <= t <= 1 -> exists a, tw t = Num a /\ - (PI / 2) <= a <= PI / 2) /\
   tw 0 = valueToAngle (Num 0) (Num 10) (Num (-1)) /\
   tw 1 = valueToAngle (Num 0) (Num 10) (Num 12) /\
   (-1 <= 0 -> 10 <= 12 -> forall t, 1 < t -> exists a, tw t = Num a /\ PI / 2 < a)).
Proof.
  split; [lra |].
  apply (arc_tween_on_gauge (fun a : jsnum => a) 0 10 (-1) 12); lra.
Defined.


Lemma bullet_bar_clamped_witness :
  ((forall a b, a <= b -> linear_c2p 2 1 a <= linear_c2p 2 1 b) /\
   linear_c2p 2 1 1 = 0 /\ 1 <= 5) /\
  bullet_bar_width (linear_c2p 2 1) 5 7 = linear_c2p 2 1 (Rmax 1 (Rmin 5 7)) /\
  0 <= bullet_bar_width (linear_c2p 2 1) 5 7 <= linear_c2p 2 1 5.
Proof.
  assert (Hm : forall a b, a <= b -> linear_c2p 2 1 a <= linear_c2p 2 1 b).
  { intros a b H. unfold linear_c2p. lra. }
  assert (H0 : linear_c2p 2 1 1 = 0) by (unfold linear_c2p; ring).
  split; [split; [exact Hm | split; [exact H0 | lra]] |].
  apply (bullet_bar_clamped (linear_c2p 2 1) 1 5 7 Hm H0); lra.
Defined.
End PlotFacts.
